(** * DSAWebsiteGroupings: data-structure core of the Flask application

    A shallow embedding of the algorithmic part of [app.py]: the linked
    [Stack] and [QueueLinked] classes and the string-keyed [BST] with its
    depth-first substring search (the same in every copy of [app.py]), and,
    from the copy with the SVG visualizers, the integer binary search tree
    behind the [/bst/...] routes and the level-order insertion of
    [/tree/insert]; together with the properties stated for them.

    Conventions.
    - A Python reference that is either [None] or a node object whose
      children are owned by it alone is an inductive tree; [Empty] is
      [None].  In-place updates of such a tree ([node.left = ...]) become
      rebuilding of the path.
    - [QueueLinked] keeps two references into one chain ([head], [tail]) and
      mutates through [tail]; it is modelled over an explicit store of node
      cells.
    - Python integers are unbounded: [Z].
    - A Python exception is the [Raise] constructor of [result].
    - A Python string is a [string] of ASCII characters; [lower], [strip]
      and [int_of_str] are Python's on such strings, and the properties
      that depend on them assume them ([ascii_only]).
    - Where a property is about what is raised, a recursive Python function
      takes the number [limit] of nested calls that the interpreter still
      allows and raises RecursionError when a call is made with none left.
      The other recursive functions are given as they return. *)

From Stdlib Require Import ZArith List Lia Bool String Ascii.
From stdpp Require Import base tactics option list strings.
From Stdlib Require Import Sorted Permutation.
Import ListNotations.

Open Scope Z_scope.

(** ** Results of fallible code *)

(** [KeyboardInterrupt] derives from [BaseException] only; the other
    classes derive from [Exception]. *)
Inductive exn : Type :=
| AttributeError
| TypeError
| ValueError
| OverflowError
| RecursionError
| KeyboardInterrupt.

Inductive result (A : Type) : Type :=
| Ok (a : A)
| Raise (e : exn).
Arguments Ok {A} a.
Arguments Raise {A} e.

#[global] Instance result_ret : MRet result := fun A a => Ok a.
#[global] Instance result_bind : MBind result := fun A B k m =>
  match m with
  | Ok a => k a
  | Raise e => Raise e
  end.

Definition is_Exception (e : exn) : bool :=
  match e with
  | KeyboardInterrupt => false
  | _ => true
  end.

(** try: body / except Exception: handler *)
Definition try_except_Exception {A} (body handler : result A) : result A :=
  match body with
  | Ok a => Ok a
  | Raise e => if is_Exception e then handler else Raise e
  end.

(** ** class TreeNode (val, left, right) *)

Inductive tree (A : Type) : Type :=
| Empty : tree A
| TreeNode (val : A) (left right : tree A).
Arguments Empty {A}.
Arguments TreeNode {A} val left right.

Module NumBST.

(** def bst_insert(node, val) *)
Fixpoint bst_insert (node : tree Z) (val : Z) : tree Z :=
  match node with
  | Empty => TreeNode val Empty Empty
  | TreeNode v l r =>
      if val <? v then TreeNode v (bst_insert l val) r
      else TreeNode v l (bst_insert r val)
  end.

(** def bst_search(node, val) *)
Fixpoint bst_search (node : tree Z) (val : Z) : bool :=
  match node with
  | Empty => false
  | TreeNode v l r =>
      if v =? val then true
      else if val <? v then bst_search l val
      else bst_search r val
  end.

(** def bst_find_max(node): [None] on the empty tree, otherwise the value
    at the end of the chain of right children. *)
Fixpoint bst_find_max (node : tree Z) : option Z :=
  match node with
  | Empty => None
  | TreeNode v _ Empty => Some v
  | TreeNode _ _ r => bst_find_max r
  end.

(** def bst_height(node) *)
Fixpoint bst_height (node : tree Z) : Z :=
  match node with
  | Empty => 0
  | TreeNode _ l r => 1 + Z.max (bst_height l) (bst_height r)
  end.

(** def bst_delete(node, val).  In the two-children case [node.left] is a
    node, so [bst_find_max] returns a value; the [None] branch below is
    never taken (lemma [bst_find_max_node]). *)
Fixpoint bst_delete (node : tree Z) (val : Z) : tree Z :=
  match node with
  | Empty => Empty
  | TreeNode v l r =>
      if val <? v then TreeNode v (bst_delete l val) r
      else if val >? v then TreeNode v l (bst_delete r val)
      else
        match l, r with
        | Empty, Empty => Empty
        | Empty, _ => r
        | _, Empty => l
        | _, _ =>
            match bst_find_max l with
            | Some temp => TreeNode temp (bst_delete l temp) r
            | None => node
            end
        end
  end.

(** The operations a client can apply to the tree. *)
Inductive op : Type :=
| Insert (k : Z)
| Delete (k : Z).

Definition apply_op (t : tree Z) (o : op) : tree Z :=
  match o with
  | Insert k => bst_insert t k
  | Delete k => bst_delete t k
  end.

Definition run (ops : list op) : tree Z := fold_left apply_op ops Empty.

(** Keys of a tree, and a property holding of every key. *)
Fixpoint keys (t : tree Z) : list Z :=
  match t with
  | Empty => []
  | TreeNode v l r => keys l ++ v :: keys r
  end.

Fixpoint all_keys (P : Z -> Prop) (t : tree Z) : Prop :=
  match t with
  | Empty => True
  | TreeNode v l r => P v /\ all_keys P l /\ all_keys P r
  end.

(** The ordering invariant of the specification: left keys strictly
    smaller, right keys greater or equal. *)
Fixpoint ordered (t : tree Z) : Prop :=
  match t with
  | Empty => True
  | TreeNode v l r =>
      all_keys (fun k => k < v) l /\ all_keys (fun k => v <= k) r
      /\ ordered l /\ ordered r
  end.

(** The invariant the code keeps in general: left keys smaller or equal. *)
Fixpoint weakly_ordered (t : tree Z) : Prop :=
  match t with
  | Empty => True
  | TreeNode v l r =>
      all_keys (fun k => k <= v) l /\ all_keys (fun k => v <= k) r
      /\ weakly_ordered l /\ weakly_ordered r
  end.

(** Both sides strict: the invariant when all keys are distinct. *)
Fixpoint strictly_ordered (t : tree Z) : Prop :=
  match t with
  | Empty => True
  | TreeNode v l r =>
      all_keys (fun k => k < v) l /\ all_keys (fun k => v < k) r
      /\ strictly_ordered l /\ strictly_ordered r
  end.

(** The tree of the specification's deletion example. *)
Definition example_tree : tree Z :=
  fold_left bst_insert [5; 3; 8; 1; 4; 7; 9] Empty.

(** The subtree found below the root on the left. *)
Definition left_of (t : tree Z) : tree Z :=
  match t with
  | Empty => Empty
  | TreeNode _ l _ => l
  end.

End NumBST.

(** ** class Node (node, left, right)

    A reference to a [Node] or [None].  [Stack] chains nodes through [left];
    the string-keyed [BST] uses both links. *)

Inductive Node (A : Type) : Type :=
| NoNode : Node A
| mkNode (node : A) (left right : Node A).
Arguments NoNode {A}.
Arguments mkNode {A} node left right.

Module Stack.

Record Stack (A : Type) : Type := mkStack { head : Node A; length : Z }.
Arguments mkStack {A} head length.
Arguments head {A} s.
Arguments length {A} s.

(** Stack.__init__ *)
Definition new {A} : Stack A := mkStack NoNode 0.

(** Stack.push: the new node points to the old head through [left]. *)
Definition push {A} (s : Stack A) (data : A) : Stack A :=
  mkStack (mkNode data (head s) NoNode) (length s + 1).

(** The loop of Stack.to_list: [items] grows at its end while [cur]
    follows [left]. *)
Fixpoint to_list_loop {A} (cur : Node A) (items : list A) : list A :=
  match cur with
  | NoNode => items
  | mkNode d l _ => to_list_loop l (items ++ [d])
  end.

(** Stack.to_list *)
Definition to_list {A} (s : Stack A) : list A := to_list_loop (head s) [].

End Stack.

(** ** Python values stored in the feed-search tree *)

Inductive pyval : Type :=
| PyNone
| PyInt (z : Z)
| PyStr (s : string)
| PyBytes (b : string).

Module Text.

Definition is_upper (c : ascii) : bool :=
  ((65 <=? nat_of_ascii c) && (nat_of_ascii c <=? 90))%nat.

(** One character of str.lower(), on ASCII text. *)
Definition lower_char (c : ascii) : ascii :=
  if is_upper c then ascii_of_nat (nat_of_ascii c + 32) else c.

(** str.lower(), on ASCII text: the properties that depend on it are stated
    for strings accepted by [ascii_only]. *)
Fixpoint lower (s : string) : string :=
  match s with
  | EmptyString => EmptyString
  | String c s' => String (lower_char c) (lower s')
  end.

(** [w in s] on two strings: [w] starts at some position of [s]. *)
Fixpoint contains (w s : string) : bool :=
  String.prefix w s ||
  match s with
  | EmptyString => false
  | String _ s' => contains w s'
  end.

(** str.__lt__: lexicographic order on character codes. *)
Definition str_lt (a b : string) : bool := String.ltb a b.

(** Every character of [s] is an ASCII character. *)
Fixpoint ascii_only (s : string) : bool :=
  match s with
  | EmptyString => true
  | String c s' => (nat_of_ascii c <? 128)%nat && ascii_only s'
  end.

(** Letters, by their place in the alphabet. *)
Definition lowercase_letters : string := "abcdefghijklmnopqrstuvwxyz".
Definition uppercase_letters : string := "ABCDEFGHIJKLMNOPQRSTUVWXYZ".

Fixpoint position (c : ascii) (alphabet : string) : option nat :=
  match alphabet with
  | EmptyString => None
  | String a rest =>
      if Ascii.eqb c a then Some O else option_map S (position c rest)
  end.

Definition letter_rank (c : ascii) : option nat :=
  match position c lowercase_letters with
  | Some i => Some i
  | None => position c uppercase_letters
  end.

(** The same character, or the same letter in two cases. *)
Definition same_letter (a b : ascii) : bool :=
  Ascii.eqb a b ||
  match letter_rank a, letter_rank b with
  | Some i, Some j => Nat.eqb i j
  | _, _ => false
  end.



(** A decision procedure for [ci_substring_of], position by position. *)
Fixpoint ci_prefix (q s : string) : bool :=
  match q with
  | EmptyString => true
  | String a q' =>
      match s with
      | EmptyString => false
      | String b s' => same_letter a b && ci_prefix q' s'
      end
  end.

Fixpoint ci_contains (q s : string) : bool :=
  ci_prefix q s ||
  match s with
  | EmptyString => false
  | String _ s' => ci_contains q s'
  end.

End Text.

Module FeedBST.
Import Text.

(** value.lower() *)
Definition py_lower (v : pyval) : result pyval :=
  match v with
  | PyStr s => Ok (PyStr (lower s))
  | PyBytes b => Ok (PyBytes (lower b))
  | _ => Raise AttributeError
  end.

(** [w in x] for a string [w]: defined on strings only. *)
Definition py_in (w : string) (x : pyval) : result bool :=
  match x with
  | PyStr s => Ok (contains w s)
  | _ => Raise TypeError
  end.

(** The closure [walk] of BST.dfs_search; [results] is the list it appends
    to.  [limit] is the number of nested calls the interpreter still allows:
    a call made when none is left raises RecursionError, and the calls on
    the children are outside the [try]. *)
Fixpoint walk (limit : nat) (w : string) (node : Node pyval)
    (results : list pyval) : result (list pyval) :=
  match limit with
  | O => Raise RecursionError
  | S limit' =>
      match node with
      | NoNode => Ok results
      | mkNode d l r =>
          results ← try_except_Exception
                      (low ← py_lower d;
                       found ← py_in w low;
                       Ok (if found : bool then results ++ [d] else results))
                      (Ok results);
          results ← walk limit' w l results;
          walk limit' w r results
      end
  end.

(** BST.dfs_search: [if not word: return []] comes first. *)
Definition dfs_search (limit : nat) (root : Node pyval) (word : string)
  : result (list pyval) :=
  if String.eqb word "" then Ok []
  else walk limit (lower word) root [].

(** BST.insert ("data expected as string"): the loop follows [left] when
    [data < cur.node] and [right] otherwise, and stores the new node in the
    first empty link; an empty tree receives it as root. *)
Fixpoint insert (cur : Node string) (data : string) : Node string :=
  match cur with
  | NoNode => mkNode data NoNode NoNode
  | mkNode d l r =>
      if str_lt data d then mkNode d (insert l data) r
      else mkNode d l (insert r data)
  end.

Fixpoint values {A B} (f : A -> B) (t : Node A) : Node B :=
  match t with
  | NoNode => NoNode
  | mkNode d l r => mkNode (f d) (values f l) (values f r)
  end.

(** perform_bst_search, from the titles of the feed. *)
Definition perform_bst_search (limit : nat) (titles : list string)
    (keyword : string) : result (list pyval) :=
  dfs_search limit (values PyStr (fold_left insert titles NoNode)) keyword.

(** Values met in the order root, left subtree, right subtree. *)
Fixpoint preorder {A} (t : Node A) : list A :=
  match t with
  | NoNode => []
  | mkNode d l r => d :: preorder l ++ preorder r
  end.

(** Number of nodes on the longest way down. *)
Fixpoint height {A} (t : Node A) : nat :=
  match t with
  | NoNode => O
  | mkNode _ l r => S (Nat.max (height l) (height r))
  end.

(** The test made by [walk] on a stored value, for the lowered query [w]. *)
Definition hit (w : string) (v : pyval) : bool :=
  match v with
  | PyStr s => contains w (lower s)
  | _ => false
  end.

(** The stored value is a string that contains [q], case ignored. *)
Definition matches (q : string) (v : pyval) : bool :=
  match v with
  | PyStr s => ci_contains q s
  | _ => false
  end.

(** A stored string holds ASCII characters only; other values are free. *)
Definition ascii_value (v : pyval) : bool :=
  match v with
  | PyStr s => ascii_only s
  | _ => true
  end.


(** The titles of the specification's search example. *)
Definition example_titles : list string :=
  ["Intro to Stacks"; "Queue Basics"; "Binary Trees"]%string.

End FeedBST.

(** ** Level-order insertion of the generic tree (/tree/insert) *)

Module GenericTree.

(** The two child links of a node. *)
Inductive slot : Type := SlotLeft | SlotRight.

(** A node object of the tree under [tree_root] is identified by the links
    followed from the root; the pending queue [q] of the route holds such
    nodes, each with the subtree found there. *)
Definition path : Type := list slot.

Definition new_node {A} (val : A) : tree A := TreeNode val Empty Empty.

(** [node.left = new] or [node.right = new] on the node reached by [p]. *)
Fixpoint attach {A} (t : tree A) (p : path) (s : slot) (new : tree A) : tree A :=
  match t with
  | Empty => Empty
  | TreeNode v l r =>
      match p with
      | [] =>
          match s with
          | SlotLeft => TreeNode v new r
          | SlotRight => TreeNode v l new
          end
      | SlotLeft :: p' => TreeNode v (attach l p' s new) r
      | SlotRight :: p' => TreeNode v l (attach r p' s new)
      end
  end.

(** The [while q:] loop.  [None]: the fuel ran out.  [Some (Ok None)]: the
    queue became empty and nothing was attached.  Reading [.left] of [None]
    raises AttributeError. *)
Fixpoint insert_loop {A} (fuel : nat) (q : list (path * tree A))
  : option (result (option (path * slot))) :=
  match fuel with
  | O => None
  | S fuel' =>
      match q with
      | [] => Some (Ok None)
      | (p, node) :: q' =>
          match node with
          | Empty => Some (Raise AttributeError)
          | TreeNode _ Empty _ => Some (Ok (Some (p, SlotLeft)))
          | TreeNode _ _ Empty => Some (Ok (Some (p, SlotRight)))
          | TreeNode _ l r =>
              insert_loop fuel'
                ((q' ++ [(p ++ [SlotLeft], l)]) ++ [(p ++ [SlotRight], r)])
          end
      end
  end.

(** The body of tree_insert_route once the value is accepted. *)
Definition tree_insert {A} (fuel : nat) (tree_root : tree A) (val : A)
  : option (result (tree A)) :=
  match tree_root with
  | Empty => Some (Ok (new_node val))
  | TreeNode _ _ _ =>
      match insert_loop fuel [([], tree_root)] with
      | None => None
      | Some (Raise e) => Some (Raise e)
      | Some (Ok None) => Some (Ok tree_root)
      | Some (Ok (Some (p, s))) => Some (Ok (attach tree_root p s (new_node val)))
      end
  end.

Fixpoint size {A} (t : tree A) : nat :=
  match t with
  | Empty => O
  | TreeNode _ l r => S (size l + size r)
  end.

Fixpoint height {A} (t : tree A) : nat :=
  match t with
  | Empty => O
  | TreeNode _ l r => S (Nat.max (height l) (height r))
  end.

(** Breadth-first order, level by level: a level is a list of nodes from
    left to right, the next level lists their children, first child before
    second. *)
Definition child_nodes {A} (x : path * tree A) : list (path * tree A) :=
  match x with
  | (_, Empty) => []
  | (p, TreeNode _ l r) =>
      match l with Empty => [] | _ => [(p ++ [SlotLeft], l)] end
      ++ match r with Empty => [] | _ => [(p ++ [SlotRight], r)] end
  end.

Definition next_level {A} (f : list (path * tree A)) : list (path * tree A) :=
  flat_map child_nodes f.

Fixpoint levels {A} (h : nat) (f : list (path * tree A)) : list (path * tree A) :=
  match h with
  | O => []
  | S h' => f ++ levels h' (next_level f)
  end.

Definition level_order {A} (t : tree A) : list (path * tree A) :=
  match t with
  | Empty => []
  | TreeNode _ _ _ => levels (height t) [([], t)]
  end.

(** The free child slot of a node, the first before the second. *)
Definition free_slot {A} (x : path * tree A) : option (path * slot) :=
  match x with
  | (_, Empty) => None
  | (p, TreeNode _ Empty _) => Some (p, SlotLeft)
  | (p, TreeNode _ _ Empty) => Some (p, SlotRight)
  | (p, TreeNode _ _ _) => None
  end.

(** The first free child slot of a forest listed in some order. *)
Fixpoint first_free {A} (f : list (path * tree A)) : option (path * slot) :=
  match f with
  | [] => None
  | x :: f' =>
      match free_slot x with
      | Some ps => Some ps
      | None => first_free f'
      end
  end.

(** Measures and shapes of a forest, for the termination of the loop. *)
Definition forest_size {A} (f : list (path * tree A)) : nat :=
  foldr (fun x n => (size (snd x) + n)%nat) O f.

Definition forest_height {A} (f : list (path * tree A)) : nat :=
  foldr (fun x n => Nat.max (height (snd x)) n) O f.

Definition is_node {A} (x : path * tree A) : Prop :=
  match x with
  | (_, Empty) => False
  | (_, TreeNode _ _ _) => True
  end.

Definition is_full {A} (x : path * tree A) : Prop :=
  match x with
  | (_, TreeNode _ (TreeNode _ _ _) (TreeNode _ _ _)) => True
  | _ => False
  end.

Definition example_values : list string := ["A"; "B"; "C"; "D"; "E"]%string.

(** Successive insertions, each with the fuel [S (size root)]. *)
Fixpoint insert_all {A} (vals : list A) (root : tree A) : option (result (tree A)) :=
  match vals with
  | [] => Some (Ok root)
  | v :: vals' =>
      match tree_insert (S (size root)) root v with
      | Some (Ok root') => insert_all vals' root'
      | other => other
      end
  end.

End GenericTree.

(** ** The /bst routes *)

Module Routes.
Import NumBST.

(** What [request.json] can hold under the key "value".  A number with a
    fraction or an exponent is a binary floating-point number
    [mantissa * 2 ^ exponent]; the parser also accepts [Infinity],
    [-Infinity] and [NaN].  [JCompound] is a list or an object, whose
    content plays no role.  Strings are strings of ASCII characters: what is
    proved of the functions on strings below is stated for such strings. *)
Inductive json : Type :=
| JNull
| JBool (b : bool)
| JInt (z : Z)
| JFloat (mantissa exponent : Z)
| JInfinity (negative : bool)
| JNaN
| JStr (s : string)
| JCompound.

(** The strings of a JSON value are ASCII. *)
Definition ascii_json (x : json) : bool :=
  match x with
  | JStr s => Text.ascii_only s
  | _ => true
  end.

Definition ascii_value (value : option json) : bool :=
  match value with
  | Some x => ascii_json x
  | None => true
  end.

(** str.isspace() on ASCII characters: the characters removed by
    str.strip(). *)
Definition is_space (c : ascii) : bool :=
  let n := nat_of_ascii c in
  (((9 <=? n) && (n <=? 13)) || ((28 <=? n) && (n <=? 32)))%nat.

(** The white space that int() skips around a literal: tab, line feed,
    vertical tab, form feed, carriage return and space; not the separators
    28 to 31. *)
Definition is_int_space (c : ascii) : bool :=
  let n := nat_of_ascii c in
  (((9 <=? n) && (n <=? 13)) || (n =? 32))%nat.

Fixpoint lstrip (s : string) : string :=
  match s with
  | EmptyString => EmptyString
  | String c s' => if is_space c then lstrip s' else s
  end.

Fixpoint rstrip (s : string) : string :=
  match s with
  | EmptyString => EmptyString
  | String c s' =>
      match rstrip s' with
      | EmptyString => if is_space c then EmptyString else String c EmptyString
      | t => String c t
      end
  end.

(** str.strip() *)
Definition strip (s : string) : string := rstrip (lstrip s).

Definition digit (c : ascii) : option Z :=
  let n := Z.of_nat (nat_of_ascii c) in
  if (48 <=? n) && (n <=? 57) then Some (n - 48) else None.

(** Decimal digits, single underscores allowed between two digits. *)
Fixpoint digits (s : string) (acc : Z) (after_underscore : bool) : option Z :=
  match s with
  | EmptyString => if after_underscore then None else Some acc
  | String c s' =>
      if Ascii.eqb c "_"%char then
        if after_underscore then None else digits s' acc true
      else
        match digit c with
        | Some d => digits s' (10 * acc + d) false
        | None => None
        end
  end.

(** The number of digits of a literal, underscores not counted, and the
    interpreter's default limit on it (sys.int_max_str_digits). *)
Fixpoint digit_count (s : string) : nat :=
  match s with
  | EmptyString => O
  | String c s' =>
      match digit c with
      | Some _ => S (digit_count s')
      | None => digit_count s'
      end
  end.

Definition max_str_digits : nat := 4300.

Definition unsigned_literal (s : string) : result Z :=
  match s with
  | EmptyString => Raise ValueError
  | String c s' =>
      match digit c with
      | Some d =>
          match digits s' d false with
          | Some n =>
              if (max_str_digits <? digit_count s)%nat then Raise ValueError
              else Ok n
          | None => Raise ValueError
          end
      | None => Raise ValueError
      end
  end.

(** The literal accepted by int() once the surrounding space is removed. *)
Definition int_literal (s : string) : result Z :=
  match s with
  | String "-"%char s' => n ← unsigned_literal s'; Ok (- n)
  | String "+"%char s' => unsigned_literal s'
  | _ => unsigned_literal s
  end.

Fixpoint int_lstrip (s : string) : string :=
  match s with
  | EmptyString => EmptyString
  | String c s' => if is_int_space c then int_lstrip s' else s
  end.

Fixpoint int_rstrip (s : string) : string :=
  match s with
  | EmptyString => EmptyString
  | String c s' =>
      match int_rstrip s' with
      | EmptyString => if is_int_space c then EmptyString else String c EmptyString
      | t => String c t
      end
  end.

(** int(x) on a string of ASCII characters: base 10, ValueError otherwise. *)
Definition int_of_str (s : string) : result Z :=
  int_literal (int_rstrip (int_lstrip s)).

(** int(x) on a floating-point number: the fraction is dropped. *)
Definition int_of_float (mantissa exponent : Z) : Z :=
  if 0 <=? exponent then mantissa * 2 ^ exponent
  else Z.quot mantissa (2 ^ (- exponent)).

(** int(x) on a JSON value: TypeError on [None], lists and objects,
    OverflowError on an infinity, ValueError on a NaN. *)
Definition py_int (x : json) : result Z :=
  match x with
  | JInt z => Ok z
  | JBool b => Ok (if b then 1 else 0)
  | JFloat mantissa exponent => Ok (int_of_float mantissa exponent)
  | JInfinity _ => Raise OverflowError
  | JNaN => Raise ValueError
  | JStr s => int_of_str s
  | JNull => Raise TypeError
  | JCompound => Raise TypeError
  end.

(** value.strip(): only strings have the method. *)
Definition py_strip (x : json) : result string :=
  match x with
  | JStr s => Ok (strip s)
  | _ => Raise AttributeError
  end.

(** The JSON answers of the routes; [Svg root] stands for
    [{"ok": True, "svg": render_generic_tree_svg(root)}]. *)
Inductive response : Type :=
| Failure (error : option string)
| Svg (root : tree Z)
| Found (found : bool).

(** request.json.get("value", "") and request.json.get("value"); the
    argument is [None] when the key is absent. *)
Definition get_value_or_empty (value : option json) : json :=
  match value with
  | Some x => x
  | None => JStr ""%string
  end.

Definition get_value (value : option json) : json :=
  match value with
  | Some x => x
  | None => JNull
  end.

(** The routes below give the answer and the tree left when the calls of
    bst_insert, bst_search, bst_delete and of the rendering return.

    def bst_insert_route(): [.strip()] is called before the [try]. *)
Definition bst_insert_route (value : option json) (bst_root : tree Z)
  : result (response * tree Z) :=
  val ← py_strip (get_value_or_empty value);
  if String.eqb val ""%string then Ok (Failure None, bst_root)
  else
    match py_int (JStr val) with
    | Raise _ => Ok (Failure (Some "numeric only"%string), bst_root)
    | Ok num =>
        let bst_root := bst_insert bst_root num in
        Ok (Svg bst_root, bst_root)
    end.

(** def bst_search_route() *)
Definition bst_search_route (value : option json) (bst_root : tree Z)
  : result (response * tree Z) :=
  match py_int (get_value value) with
  | Raise _ => Ok (Failure None, bst_root)
  | Ok num => Ok (Found (bst_search bst_root num), bst_root)
  end.

(** def bst_delete_route() *)
Definition bst_delete_route (value : option json) (bst_root : tree Z)
  : result (response * tree Z) :=
  match py_int (get_value value) with
  | Raise _ => Ok (Failure None, bst_root)
  | Ok num =>
      let bst_root := bst_delete bst_root num in
      Ok (Svg bst_root, bst_root)
  end.

End Routes.

(** ** class QueueLinked

    [head] and [tail] refer to nodes of one chain and [enqueue] writes
    through [tail]: the nodes are cells of a store, a reference is the index
    of its cell, a new node takes the next index. *)

Module Queue.

Definition ref : Type := nat.

Record cell (A : Type) : Type :=
  mkCell { node : A; left : option ref; right : option ref }.
Arguments mkCell {A} node left right.
Arguments node {A} c.
Arguments left {A} c.
Arguments right {A} c.

Record QueueLinked (A : Type) : Type :=
  mkQueue { store : list (cell A);
            head : option ref;
            tail : option ref;
            length : Z }.
Arguments mkQueue {A} store head tail length.
Arguments store {A} q.
Arguments head {A} q.
Arguments tail {A} q.
Arguments length {A} q.

Section Operations.
Context {A : Type}.

(** QueueLinked.__init__ *)
Definition new : QueueLinked A := mkQueue [] None None 0.

(** [c.right = r] *)
Definition set_right (r : option ref) (c : cell A) : cell A :=
  mkCell (node c) (left c) r.

(** The object behind a reference.  [None] has no attributes; a reference
    obtained from an allocation always has its cell. *)
Definition deref (st : list (cell A)) (r : option ref) : result (ref * cell A) :=
  match r with
  | None => Raise AttributeError
  | Some i =>
      match st !! i with
      | Some c => Ok (i, c)
      | None => Raise AttributeError
      end
  end.

(** QueueLinked.enqueue *)
Definition enqueue (q : QueueLinked A) (data : A) : result (QueueLinked A) :=
  let n := List.length (store q) in
  let st := store q ++ [mkCell data None None] in
  match head q with
  | None => Ok (mkQueue st (Some n) (Some n) (length q + 1))
  | Some _ =>
      '(t, c) ← deref st (tail q);
      Ok (mkQueue (<[t := set_right (Some n) c]> st) (head q) (Some n)
            (length q + 1))
  end.

(** QueueLinked.dequeue; the returned [None] is Python's [None]. *)
Definition dequeue (q : QueueLinked A) : result (option A * QueueLinked A) :=
  if length q =? 0 then Ok (None, q)
  else
    '(_, n) ← deref (store q) (head q);
    Ok (Some (node n), mkQueue (store q) (right n) (tail q) (length q - 1)).

Inductive op : Type :=
| Enqueue (data : A)
| Dequeue.

(** A sequence of calls; the values returned by the [dequeue] calls are
    collected in order. *)
Fixpoint run (ops : list op) (q : QueueLinked A)
  : result (list (option A) * QueueLinked A) :=
  match ops with
  | [] => Ok ([], q)
  | Enqueue data :: ops' => q' ← enqueue q data; run ops' q'
  | Dequeue :: ops' =>
      '(r, q') ← dequeue q;
      '(rs, q'') ← run ops' q';
      Ok (r :: rs, q'')
  end.

(** The queue of the specification: a list, appended to at the back and
    taken from at the front; taking from the empty list yields [None]. *)
Fixpoint fifo_run (ops : list op) (l : list A) : list (option A) * list A :=
  match ops with
  | [] => ([], l)
  | Enqueue data :: ops' => fifo_run ops' (l ++ [data])
  | Dequeue :: ops' =>
      match l with
      | [] => let '(rs, l') := fifo_run ops' [] in (None :: rs, l')
      | x :: l' => let '(rs, l'') := fifo_run ops' l' in (Some x :: rs, l'')
      end
  end.

(** The values enqueued, in the order of the calls. *)
Fixpoint enqueued (ops : list op) : list A :=
  match ops with
  | [] => []
  | Enqueue data :: ops' => data :: enqueued ops'
  | Dequeue :: ops' => enqueued ops'
  end.

(** The values handed out, in the order of the calls. *)
Fixpoint returned (rs : list (option A)) : list A :=
  match rs with
  | [] => []
  | Some x :: rs' => x :: returned rs'
  | None :: rs' => returned rs'
  end.

(** [seg st r l last]: following [right] from the cell [r] one meets the
    values [l], and the cell [last], which has no successor, holds the last
    of them. *)
Inductive seg (st : list (cell A)) : ref -> list A -> ref -> Prop :=
| seg_last r c :
    st !! r = Some c -> right c = None -> seg st r [node c] r
| seg_next r c r' l last :
    st !! r = Some c -> right c = Some r' -> seg st r' l last ->
    seg st r (node c :: l) last.

(** The queue object [q] holds the values [l]. *)
Definition repr (q : QueueLinked A) (l : list A) : Prop :=
  length q = Z.of_nat (List.length l)
  /\ match l with
     | [] => head q = None
     | _ :: _ => exists h t, head q = Some h /\ tail q = Some t
                             /\ seg (store q) h l t
     end.

(** The invariant as the specification words it, and its converse. *)
Definition tail_implies_head (q : QueueLinked A) : Prop :=
  tail q <> None -> head q <> None.

Definition head_implies_tail (q : QueueLinked A) : Prop :=
  head q <> None -> tail q <> None.

End Operations.
Arguments op A : clear implicits.

End Queue.

(** ** The keys of the integer tree as a bag *)

Module NumBSTBag.
Import NumBST.

(** One occurrence of [k] less, if there is one. *)
Fixpoint remove_one (k : Z) (b : list Z) : list Z :=
  match b with
  | [] => []
  | x :: b' => if x =? k then b' else x :: remove_one k b'
  end.

(** What a run of insertions and deletions does to a bag of keys. *)
Definition bag_op (b : list Z) (o : op) : list Z :=
  match o with
  | Insert k => k :: b
  | Delete k => remove_one k b
  end.

Definition bag (ops : list op) : list Z := fold_left bag_op ops [].

(** Number of nodes. *)
Fixpoint nodes (t : tree Z) : Z :=
  match t with
  | Empty => 0
  | TreeNode _ l r => 1 + nodes l + nodes r
  end.

End NumBSTBag.

(** ** escape_text *)

Module Markup.

(** The double quote character. *)
Definition dquote : ascii := ascii_of_nat 34.

(** s.replace(old, new) for a pattern [old] of one character. *)
Fixpoint replace (old : ascii) (new : string) (s : string) : string :=
  match s with
  | EmptyString => EmptyString
  | String c s' =>
      if Ascii.eqb c old then (new ++ replace old new s')%string
      else String c (replace old new s')
  end.

(** def escape_text(text), on [None] and on strings ([str(text)] is then
    [text]). *)
Definition escape_text (text : option string) : string :=
  match text with
  | None => EmptyString
  | Some s =>
      replace "'"%char "&#39;"
        (replace dquote "&quot;"
           (replace ">"%char "&gt;"
              (replace "<"%char "&lt;"
                 (replace "&"%char "&amp;" s))))
  end.

(** What one character becomes. *)
Definition escape_char (c : ascii) : string :=
  if Ascii.eqb c "&"%char then "&amp;"%string
  else if Ascii.eqb c "<"%char then "&lt;"%string
  else if Ascii.eqb c ">"%char then "&gt;"%string
  else if Ascii.eqb c dquote then "&quot;"%string
  else if Ascii.eqb c "'"%char then "&#39;"%string
  else String c EmptyString.

Fixpoint escape_each (s : string) : string :=
  match s with
  | EmptyString => EmptyString
  | String c s' => (escape_char c ++ escape_each s')%string
  end.

(** No angle bracket and no quote occurs in [s]. *)
Fixpoint markup_free (s : string) : bool :=
  match s with
  | EmptyString => true
  | String c s' =>
      negb (Ascii.eqb c "<"%char) && negb (Ascii.eqb c ">"%char)
      && negb (Ascii.eqb c dquote) && negb (Ascii.eqb c "'"%char)
      && markup_free s'
  end.

End Markup.

(** ** The list-based queue and stack, the manual binary tree and the
    remaining /bst routes of the visualizer *)

Module Visualizer.
Import NumBST Routes.

(** [{"ok": False}], or [{"ok": True, "svg": ...}] rendered from the
    state. *)
Inductive answer (S : Type) : Type :=
| Rejected
| Rendered (state : S).
Arguments Rejected {S}.
Arguments Rendered {S} state.

(** def queue_enqueue() *)
Definition queue_enqueue (value : option json) (queue : list string)
  : result (answer (list string) * list string) :=
  val ← py_strip (get_value_or_empty value);
  if String.eqb val ""%string then Ok (Rejected, queue)
  else let queue := queue ++ [val] in Ok (Rendered queue, queue).

(** def queue_dequeue(): [queue.pop(0)] when the list is not empty. *)
Definition queue_dequeue (queue : list string)
  : result (answer (list string) * list string) :=
  let queue := match queue with [] => [] | _ :: rest => rest end in
  Ok (Rendered queue, queue).

(** def stack_push() *)
Definition stack_push (value : option json) (stack : list string)
  : result (answer (list string) * list string) :=
  val ← py_strip (get_value_or_empty value);
  if String.eqb val ""%string then Ok (Rejected, stack)
  else let stack := stack ++ [val] in Ok (Rendered stack, stack).

(** def stack_pop(): [stack.pop()] when the list is not empty. *)
Definition stack_pop (stack : list string)
  : result (answer (list string) * list string) :=
  let stack := removelast stack in
  Ok (Rendered stack, stack).

(** def bt_add_left() *)
Definition bt_add_left (value : option json) (bt_root : tree string)
  : result (answer (tree string) * tree string) :=
  val ← py_strip (get_value_or_empty value);
  if String.eqb val ""%string then Ok (Rejected, bt_root)
  else
    let bt_root :=
      match bt_root with
      | Empty => TreeNode val Empty Empty
      | TreeNode v Empty r => TreeNode v (TreeNode val Empty Empty) r
      | TreeNode _ _ _ => bt_root
      end in
    Ok (Rendered bt_root, bt_root).

(** def bt_add_right() *)
Definition bt_add_right (value : option json) (bt_root : tree string)
  : result (answer (tree string) * tree string) :=
  val ← py_strip (get_value_or_empty value);
  if String.eqb val ""%string then Ok (Rejected, bt_root)
  else
    let bt_root :=
      match bt_root with
      | Empty => TreeNode val Empty Empty
      | TreeNode v l Empty => TreeNode v l (TreeNode val Empty Empty)
      | TreeNode _ _ _ => bt_root
      end in
    Ok (Rendered bt_root, bt_root).

(** def bt_reset() *)
Definition bt_reset (bt_root : tree string)
  : result (answer (tree string) * tree string) :=
  Ok (Rendered Empty, Empty).

(** Requests to the queue and stack routes, on the pair of the two lists. *)
Inductive list_request : Type :=
| QueueEnqueue (value : option json)
| QueueDequeue
| StackPush (value : option json)
| StackPop.

Definition handle_list (req : list_request) (st : list string * list string)
  : result (list string * list string) :=
  match req with
  | QueueEnqueue value => '(_, q) ← queue_enqueue value st.1; Ok (q, st.2)
  | QueueDequeue => '(_, q) ← queue_dequeue st.1; Ok (q, st.2)
  | StackPush value => '(_, s) ← stack_push value st.2; Ok (st.1, s)
  | StackPop => '(_, s) ← stack_pop st.2; Ok (st.1, s)
  end.

Fixpoint serve_lists (reqs : list list_request) (st : list string * list string)
  : result (list string * list string) :=
  match reqs with
  | [] => Ok st
  | req :: reqs' => st' ← handle_list req st; serve_lists reqs' st'
  end.

(** A stored value: it has a first and a last character, and neither is
    white space. *)
Definition first_char (v : string) : option ascii :=
  match v with
  | EmptyString => None
  | String c _ => Some c
  end.

Fixpoint last_char (v : string) : option ascii :=
  match v with
  | EmptyString => None
  | String c EmptyString => Some c
  | String _ v' => last_char v'
  end.

Definition stored_ok (v : string) : bool :=
  match first_char v, last_char v with
  | Some a, Some b => negb (is_space a) && negb (is_space b)
  | _, _ => false
  end.

(** The strings of a request are ASCII. *)
Definition ascii_list_request (req : list_request) : bool :=
  match req with
  | QueueEnqueue value => ascii_value value
  | StackPush value => ascii_value value
  | _ => true
  end.

(** Requests to the manual binary tree. *)
Inductive bt_request : Type :=
| BtAddLeft (value : option json)
| BtAddRight (value : option json)
| BtReset.

(** The strings of a request are ASCII. *)
Definition ascii_bt_request (req : bt_request) : bool :=
  match req with
  | BtAddLeft value => ascii_value value
  | BtAddRight value => ascii_value value
  | BtReset => true
  end.

Definition handle_bt (req : bt_request) (bt_root : tree string)
  : result (tree string) :=
  match req with
  | BtAddLeft value => '(_, t) ← bt_add_left value bt_root; Ok t
  | BtAddRight value => '(_, t) ← bt_add_right value bt_root; Ok t
  | BtReset => '(_, t) ← bt_reset bt_root; Ok t
  end.

Fixpoint serve_bt (reqs : list bt_request) (bt_root : tree string)
  : result (tree string) :=
  match reqs with
  | [] => Ok bt_root
  | req :: reqs' => t ← handle_bt req bt_root; serve_bt reqs' t
  end.

(** The answers of all /bst routes. *)
Inductive bst_answer : Type :=
| Plain (r : response)
| MaxIs (m : option Z)
| HeightIs (h : Z).

(** def bst_max_route() and def bst_height_route() *)
Definition bst_max_route (bst_root : tree Z) : result (bst_answer * tree Z) :=
  Ok (MaxIs (bst_find_max bst_root), bst_root).

Definition bst_height_route (bst_root : tree Z) : result (bst_answer * tree Z) :=
  Ok (HeightIs (bst_height bst_root), bst_root).

Inductive bst_request : Type :=
| PostInsert (value : option json)
| PostSearch (value : option json)
| PostDelete (value : option json)
| GetMax
| GetHeight.

Definition handle_bst (req : bst_request) (bst_root : tree Z)
  : result (bst_answer * tree Z) :=
  match req with
  | PostInsert value => '(r, t) ← bst_insert_route value bst_root; Ok (Plain r, t)
  | PostSearch value => '(r, t) ← bst_search_route value bst_root; Ok (Plain r, t)
  | PostDelete value => '(r, t) ← bst_delete_route value bst_root; Ok (Plain r, t)
  | GetMax => bst_max_route bst_root
  | GetHeight => bst_height_route bst_root
  end.

Fixpoint serve_bst (reqs : list bst_request) (bst_root : tree Z)
  : result (list bst_answer * tree Z) :=
  match reqs with
  | [] => Ok ([], bst_root)
  | req :: reqs' =>
      '(a, t) ← handle_bst req bst_root;
      '(answers, t') ← serve_bst reqs' t;
      Ok (a :: answers, t')
  end.

(** The tree operation a request stands for, if its value is accepted: an
    insertion takes a string, stripped and then read by int(); a deletion
    takes whatever int() reads. *)
Definition accepted (req : bst_request) : list op :=
  match req with
  | PostInsert (Some (JStr s)) =>
      match py_int (JStr (strip s)) with
      | Ok num => [Insert num]
      | Raise _ => []
      end
  | PostDelete value =>
      match py_int (get_value value) with
      | Ok num => [Delete num]
      | Raise _ => []
      end
  | _ => []
  end.

(** The strings of a request are ASCII. *)
Definition ascii_bst_request (req : bst_request) : bool :=
  match req with
  | PostInsert value => ascii_value value
  | PostSearch value => ascii_value value
  | PostDelete value => ascii_value value
  | _ => true
  end.

End Visualizer.

(** ** Positions and values in the generic tree *)

Module GenericTreeShape.
Import GenericTree.

(** The subtree reached by following [p] from the root; [Empty] when the
    path leaves the tree. *)
Fixpoint subtree {A} (t : tree A) (p : path) {struct p} : tree A :=
  match p with
  | [] => t
  | s :: p' =>
      match t with
      | Empty => Empty
      | TreeNode _ l r =>
          match s with
          | SlotLeft => subtree l p'
          | SlotRight => subtree r p'
          end
      end
  end.

(** What a child link of a node holds. *)
Definition slot_of {A} (t : tree A) (s : slot) : tree A :=
  match t with
  | Empty => Empty
  | TreeNode _ l r =>
      match s with
      | SlotLeft => l
      | SlotRight => r
      end
  end.

(** The values stored in a tree. *)
Fixpoint values {A} (t : tree A) : list A :=
  match t with
  | Empty => []
  | TreeNode v l r => v :: values l ++ values r
  end.

(** The node object [x] of a queue sits in [root] where its path says. *)
Definition located {A} (root : tree A) (x : path * tree A) : Prop :=
  subtree root x.1 = x.2.

(** The value of the node reached by following [q] from the root, if there
    is a node there. *)
Definition label {A} (t : tree A) (q : path) : option A :=
  match subtree t q with
  | Empty => None
  | TreeNode v _ _ => Some v
  end.

(** [root'] is [root] with one more node: a leaf holding [x] at the place
    [q], which was free; every other place holds what it held. *)
Definition added_at {A} (root root' : tree A) (q : path) (x : A) : Prop :=
  subtree root q = Empty
  /\ subtree root' q = TreeNode x Empty Empty
  /\ forall q', q' <> q -> label root' q' = label root q'.

(** The specification's example extended by two values, which go below the
    second child of the root. *)
Definition example_values_7 : list string :=
  example_values ++ ["F"%string; "G"%string].

End GenericTreeShape.

(** ** The feed: get_feed_stack and the search over its titles *)

Module Feed.
Import Text.

(** A row of the table [posts] as the query returns it; a column may be
    NULL. *)
Record row : Type :=
  mkRow { row_id : Z;
          row_title : option string;
          row_caption : option string;
          row_author : option string;
          row_post_type : option string;
          row_up : option Z;
          row_down : option Z }.

(** The dictionary built for a row. *)
Record post : Type :=
  mkPost { id : Z;
           title : option string;
           caption : option string;
           author : option string;
           post_type : option string;
           up : Z;
           down : Z }.

Definition to_post (r : row) : post :=
  mkPost (row_id r) (row_title r) (row_caption r) (row_author r)
    (row_post_type r)
    (match row_up r with Some u => u | None => 0 end)
    (match row_down r with Some d => d | None => 0 end).

(** def get_feed_stack(), from the rows of the query. *)
Definition get_feed_stack (rows : list row) : list post :=
  Stack.to_list
    (fold_left (fun stack r => Stack.push stack (to_post r)) rows Stack.new).

(** [post.get("title", "") or ""] *)
Definition title_or_empty (p : post) : string :=
  match title p with
  | Some s => s
  | None => EmptyString
  end.

(** def perform_bst_search(keyword), from the rows of the query. *)
Definition perform_bst_search (limit : nat) (rows : list row)
    (keyword : string) : result (list pyval) :=
  FeedBST.perform_bst_search limit
    (map title_or_empty (get_feed_stack rows)) keyword.

(** The titles of the rows, a NULL title counting as the empty string, and
    those that contain the keyword, case ignored. *)
Definition titles_of (rows : list row) : list string :=
  map (fun r => title_or_empty (to_post r)) rows.

Definition matching_titles (rows : list row) (keyword : string) : list string :=
  List.filter (ci_contains keyword) (titles_of rows).

Fixpoint all_values {A} (P : A -> Prop) (t : Node A) : Prop :=
  match t with
  | NoNode => True
  | mkNode d l r => P d /\ all_values P l /\ all_values P r
  end.

(** The ordering BST.insert works with: on the left the values smaller than
    the node's for Python's [<], on the right the others. *)
Fixpoint str_ordered (t : Node string) : Prop :=
  match t with
  | NoNode => True
  | mkNode d l r =>
      all_values (fun k => str_lt k d = true) l
      /\ all_values (fun k => str_lt k d = false) r
      /\ str_ordered l /\ str_ordered r
  end.

End Feed.

(** ** /bst/insert and /bst/reset of the application with HTML fragments *)

Module TopBST.
Import Routes.

(** The local function [insert(node, v)] of bst_insert, on the dictionaries
    with the keys value, left and right.  [limit] is the number of nested
    calls the interpreter still allows: a call made when none is left raises
    RecursionError, before any link is assigned. *)
Fixpoint insert (limit : nat) (node : tree Z) (v : Z) : result (tree Z) :=
  match limit with
  | O => Raise RecursionError
  | S limit' =>
      match node with
      | Empty => Ok (TreeNode v Empty Empty)
      | TreeNode value l r =>
          if v <? value then
            l' ← insert limit' l v; Ok (TreeNode value l' r)
          else
            r' ← insert limit' r v; Ok (TreeNode value l r')
      end
  end.

(** def render_bst_html(node): the calls it makes on the nodes and on the
    empty links; the text it builds stands in the answer [Render]. *)
Fixpoint render_bst_html (limit : nat) (node : tree Z) : result unit :=
  match limit with
  | O => Raise RecursionError
  | S limit' =>
      match node with
      | Empty => Ok tt
      | TreeNode _ l r =>
          _ ← render_bst_html limit' l;
          _ ← render_bst_html limit' r;
          Ok tt
      end
  end.

(** The error answer with status 400, or the rendered tree. *)
Inductive answer : Type :=
| Error400
| Render (root : tree Z).

(** def bst_insert(): [int(raw)] inside [try ... except Exception], the
    calls of [insert] and of render_bst_html outside.  The result is the
    answer, or the exception that leaves the function, and the tree that
    [bst["root"]] holds afterwards: the server goes on with it in both
    cases. *)
Definition bst_insert (limit : nat) (raw : option json) (root : tree Z)
  : result answer * tree Z :=
  match py_int (get_value raw) with
  | Raise e => if is_Exception e then (Ok Error400, root) else (Raise e, root)
  | Ok value =>
      match insert limit root value with
      | Raise e => (Raise e, root)
      | Ok root =>
          (_ ← render_bst_html limit root; Ok (Render root), root)
      end
  end.

(** def bst_reset() *)
Definition bst_reset (root : tree Z) : result answer * tree Z :=
  (Ok (Render Empty), Empty).

Inductive request : Type :=
| PostInsert (raw : option json)
| PostReset.

Definition handle (limit : nat) (req : request) (root : tree Z)
  : result answer * tree Z :=
  match req with
  | PostInsert raw => bst_insert limit raw root
  | PostReset => bst_reset root
  end.

(** The requests served one after the other, each with [limit] nested
    calls allowed. *)
Fixpoint serve (limit : nat) (reqs : list request) (root : tree Z)
  : list (result answer) * tree Z :=
  match reqs with
  | [] => ([], root)
  | req :: reqs' =>
      let '(a, t) := handle limit req root in
      let '(answers, t') := serve limit reqs' t in
      (a :: answers, t')
  end.

(** The integers read by int() from the requests since the last reset. *)
Fixpoint stored (reqs : list request) (acc : list Z) : list Z :=
  match reqs with
  | [] => acc
  | PostInsert raw :: reqs' =>
      match py_int (get_value raw) with
      | Ok value => stored reqs' (value :: acc)
      | Raise _ => stored reqs' acc
      end
  | PostReset :: reqs' => stored reqs' []
  end.

(** What a request may be answered with: the error 400 when int() rejects
    the value, a rendered tree or RecursionError when it reads it. *)
Definition answered (req : request) (a : result answer) : Prop :=
  match req with
  | PostReset => a = Ok (Render Empty)
  | PostInsert raw =>
      match py_int (get_value raw) with
      | Raise _ => a = Ok Error400
      | Ok _ => a = Raise RecursionError \/ exists root, a = Ok (Render root)
      end
  end.

Definition raised (a : result answer) : bool :=
  match a with
  | Raise _ => true
  | Ok _ => false
  end.

(** The strings of a request are ASCII. *)
Definition ascii_request (req : request) : bool :=
  match req with
  | PostInsert raw => ascii_value raw
  | PostReset => true
  end.

End TopBST.

(** ** The binary tree with node identifiers (/bt/add_left, /bt/add_right) *)

Module IdTree.
Import GenericTree GenericTreeShape.

Section WithValues.
(** The values are whatever JSON the client sends. *)
Context {V : Type}.

(** A node is a dictionary with the keys id, value, left and right; the
    value of a [TreeNode] holds the first two. *)
Definition node : Type := tree (string * V).

Definition leaf (id : string) (value : V) : node :=
  TreeNode (id, value) Empty Empty.

(** def find_node_by_id(node, target); the node found is given by the links
    followed from [node], appended to [here]. *)
Fixpoint find_node_by_id (n : node) (target : string) (here : path)
  : option path :=
  match n with
  | Empty => None
  | TreeNode (id, _) l r =>
      if String.eqb id target then Some here
      else
        match find_node_by_id l target (here ++ [SlotLeft]) with
        | Some found => Some found
        | None => find_node_by_id r target (here ++ [SlotRight])
        end
  end.

(** [cur = root; while cur.get(s): cur = cur[s]; cur[s] = new]: the new
    node goes to the end of the chain of [s] links. *)
Fixpoint attach_at_end (s : slot) (cur : node) (new : node) : node :=
  match cur with
  | Empty => new
  | TreeNode v l r =>
      match s with
      | SlotLeft => TreeNode v (attach_at_end s l new) r
      | SlotRight => TreeNode v l (attach_at_end s r new)
      end
  end.

(** [if parent:] on an identifier that is a string or missing. *)
Definition given (parent : option string) : option string :=
  match parent with
  | Some p => if String.eqb p "" then None else Some p
  | None => None
  end.

(** The common body of bt_left ([s = SlotLeft]) and bt_right
    ([s = SlotRight]); [fresh] is the identifier new_id() returns. *)
Definition bt_add (s : slot) (parent : option string) (value : V)
    (fresh : string) (root : node) : node :=
  match root with
  | Empty => leaf fresh value
  | TreeNode _ _ _ =>
      match given parent with
      | Some p =>
          match find_node_by_id root p [] with
          | Some found =>
              match slot_of (subtree root found) s with
              | Empty => attach root found s (leaf fresh value)
              | TreeNode _ _ _ => root
              end
          | None => root
          end
      | None =>
          match slot_of root s with
          | Empty => attach root [] s (leaf fresh value)
          | TreeNode _ _ _ => attach_at_end s root (leaf fresh value)
          end
      end
  end.

(** def bt_left() and def bt_right() *)
Definition bt_left := bt_add SlotLeft.
Definition bt_right := bt_add SlotRight.

(** The identifiers of the nodes. *)
Definition ids (n : node) : list string := map fst (values n).

End WithValues.
Arguments node V : clear implicits.

End IdTree.

(** ** The general tree with node identifiers (/tree/add_root,
    /tree/add_child) *)

Module ChildTree.

Section WithValues.
Context {V : Type}.

(** A node is a dictionary with the keys id, value and children. *)
#[warnings="-register-all"]
Inductive gnode : Type :=
| GNode (id : string) (value : V) (children : list gnode).

Definition gleaf (id : string) (value : V) : gnode := GNode id value [].

(** The local function [add(node)] of t_child: the updated node and the
    returned boolean.  The first node bearing [target], the node itself
    before its children and a child before the next, receives [new] as its
    last child. *)
Fixpoint add (target : string) (new : gnode) (n : gnode) : bool * gnode :=
  match n with
  | GNode id value children =>
      if String.eqb id target then (true, GNode id value (children ++ [new]))
      else
        let '(done, children') :=
          (fix add_first (cs : list gnode) : bool * list gnode :=
             match cs with
             | [] => (false, [])
             | child :: rest =>
                 let '(done, child') := add target new child in
                 if done then (true, child' :: rest)
                 else
                   let '(done', rest') := add_first rest in
                   (done', child :: rest')
             end) children in
        (done, GNode id value children')
  end.

(** def t_root(): the tree is replaced by a single node. *)
Definition t_root (value : V) (fresh : string) (root : option gnode)
  : option gnode :=
  Some (gleaf fresh value).

(** def t_child(), with a target that is a string or missing. *)
Definition t_child (target : option string) (value : V) (fresh : string)
    (root : option gnode) : option gnode :=
  match root, target with
  | Some n, Some t =>
      if String.eqb t "" then root
      else Some (add t (gleaf fresh value) n).2
  | _, _ => root
  end.

(** Number of nodes and identifiers of a tree. *)
Fixpoint count (n : gnode) : nat :=
  match n with
  | GNode _ _ children =>
      S ((fix count_all (cs : list gnode) : nat :=
            match cs with
            | [] => O
            | c :: rest => (count c + count_all rest)%nat
            end) children)
  end.

Fixpoint gids (n : gnode) : list string :=
  match n with
  | GNode id _ children =>
      id :: (fix gids_all (cs : list gnode) : list string :=
               match cs with
               | [] => []
               | c :: rest => gids c ++ gids_all rest
               end) children
  end.

(** The loop over the children, the counts and the identifiers of a list of
    nodes, on their own. *)
Fixpoint add_first (target : string) (new : gnode) (cs : list gnode)
  : bool * list gnode :=
  match cs with
  | [] => (false, [])
  | child :: rest =>
      let '(done, child') := add target new child in
      if done then (true, child' :: rest)
      else
        let '(done', rest') := add_first target new rest in
        (done', child :: rest')
  end.

Definition count_all (cs : list gnode) : nat :=
  foldr (fun c k => (count c + k)%nat) O cs.

Definition gids_all (cs : list gnode) : list string := flat_map gids cs.

(** What [add] does to a node: nothing when no node bears the target, one
    more subtree otherwise. *)
Definition add_ok (target : string) (new n : gnode) : Prop :=
  match add target new n with
  | (false, n') => n' = n /\ ~ In target (gids n)
  | (true, n') => count n' = (count n + count new)%nat /\ In target (gids n)
  end.

Definition count_root (root : option gnode) : nat :=
  match root with
  | Some n => count n
  | None => O
  end.

Definition gids_root (root : option gnode) : list string :=
  match root with
  | Some n => gids n
  | None => []
  end.

End WithValues.
Arguments gnode V : clear implicits.

End ChildTree.

(** * Properties *)

(** ** Integer binary search tree *)

Section NumBSTFacts.
Import NumBST.

Lemma all_keys_In (P : Z -> Prop) (t : tree Z) :
  all_keys P t <-> (forall k, In k (keys t) -> P k).
Proof.
  induction t as [|v l IHl r IHr]; simpl.
  - split; [intros _ k []|trivial].
  - rewrite IHl, IHr. split.
    + intros (Hv & Hl & Hr) k Hk. apply in_app_or in Hk as [Hk|[<-|Hk]]; auto.
    + intros H. repeat split; intros; apply H; apply in_or_app; simpl; auto.
Qed.

Lemma all_keys_impl (P Q : Z -> Prop) (t : tree Z) :
  (forall k, P k -> Q k) -> all_keys P t -> all_keys Q t.
Proof. rewrite !all_keys_In. auto. Qed.

Lemma keys_insert (t : tree Z) (k x : Z) :
  In x (keys (bst_insert t k)) <-> x = k \/ In x (keys t).
Proof.
  induction t as [|v l IHl r IHr]; simpl.
  - intuition.
  - destruct (k <? v); simpl; rewrite !in_app_iff; simpl;
      rewrite ?in_app_iff, ?IHl, ?IHr; intuition.
Qed.

Lemma all_keys_insert (P : Z -> Prop) (t : tree Z) (k : Z) :
  all_keys P t -> P k -> all_keys P (bst_insert t k).
Proof.
  rewrite !all_keys_In. intros H Hk x Hx.
  apply keys_insert in Hx as [->|Hx]; auto.
Qed.

Lemma ordered_insert (t : tree Z) (k : Z) :
  ordered t -> ordered (bst_insert t k).
Proof.
  induction t as [|v l IHl r IHr]; simpl; [tauto|].
  intros (Hl & Hr & Ol & Or).
  destruct (Z.ltb_spec k v); simpl; repeat split; auto;
    apply all_keys_insert; auto; lia.
Qed.

Lemma weakly_ordered_insert (t : tree Z) (k : Z) :
  weakly_ordered t -> weakly_ordered (bst_insert t k).
Proof.
  induction t as [|v l IHl r IHr]; simpl; [tauto|].
  intros (Hl & Hr & Ol & Or).
  destruct (Z.ltb_spec k v); simpl; repeat split; auto;
    apply all_keys_insert; auto; lia.
Qed.

Lemma strictly_ordered_insert (t : tree Z) (k : Z) :
  strictly_ordered t -> ~ In k (keys t) -> strictly_ordered (bst_insert t k).
Proof.
  induction t as [|v l IHl r IHr]; simpl; [tauto|].
  intros (Hl & Hr & Ol & Or) Hk.
  rewrite in_app_iff in Hk; simpl in Hk.
  assert (v <> k) by tauto.
  destruct (Z.ltb_spec k v); simpl.
  - split; [apply all_keys_insert; [assumption|lia]|].
    repeat split; try assumption. apply IHl; tauto.
  - split; [assumption|].
    split; [apply all_keys_insert; [assumption|lia]|].
    split; [assumption|]. apply IHr; tauto.
Qed.

Lemma ordered_weakly (t : tree Z) : ordered t -> weakly_ordered t.
Proof.
  induction t as [|v l IHl r IHr]; simpl; [tauto|].
  intros (Hl & Hr & Ol & Or). repeat split; auto.
  eapply all_keys_impl; [|exact Hl]. simpl; intros; lia.
Qed.

Lemma strictly_ordered_weakly (t : tree Z) :
  strictly_ordered t -> weakly_ordered t.
Proof.
  induction t as [|v l IHl r IHr]; simpl; [tauto|].
  intros (Hl & Hr & Ol & Or). repeat split; auto.
  - eapply all_keys_impl; [|exact Hl]. simpl; intros; lia.
  - eapply all_keys_impl; [|exact Hr]. simpl; intros; lia.
Qed.

(** [bst_search] decides membership as soon as the tree is weakly ordered. *)
Lemma bst_search_In (t : tree Z) (k : Z) :
  weakly_ordered t -> (bst_search t k = true <-> In k (keys t)).
Proof.
  induction t as [|v l IHl r IHr]; simpl.
  - intros _. split; [discriminate|tauto].
  - intros (Hl & Hr & Ol & Or).
    rewrite all_keys_In in Hl, Hr. rewrite in_app_iff. simpl.
    destruct (Z.eqb_spec v k) as [->|Hne]; [tauto|].
    destruct (Z.ltb_spec k v) as [Hlt|Hge].
    + rewrite (IHl Ol). split; [tauto|].
      intros [H|[H|H]]; [assumption|congruence|]. apply Hr in H. lia.
    + rewrite (IHr Or). split; [tauto|].
      intros [H|[H|H]]; [|congruence|assumption]. apply Hl in H. lia.
Qed.

(** Unfolding equations of [bst_delete]. *)
Lemma bst_delete_lt v l r val :
  val < v -> bst_delete (TreeNode v l r) val = TreeNode v (bst_delete l val) r.
Proof. intros H. simpl. destruct (Z.ltb_spec val v); [reflexivity|lia]. Qed.

Lemma bst_delete_gt v l r val :
  v < val -> bst_delete (TreeNode v l r) val = TreeNode v l (bst_delete r val).
Proof.
  intros H. simpl. destruct (Z.ltb_spec val v); [lia|].
  destruct (Z.gtb_spec val v); [reflexivity|lia].
Qed.

Lemma bst_delete_here v l r :
  bst_delete (TreeNode v l r) v =
    match l, r with
    | Empty, Empty => Empty
    | Empty, _ => r
    | _, Empty => l
    | _, _ =>
        match bst_find_max l with
        | Some temp => TreeNode temp (bst_delete l temp) r
        | None => TreeNode v l r
        end
    end.
Proof.
  simpl. rewrite Z.ltb_irrefl.
  destruct (Z.gtb_spec v v); [lia|reflexivity].
Qed.

Lemma bst_find_max_node v l r : exists m, bst_find_max (TreeNode v l r) = Some m.
Proof.
  revert v l. induction r as [|v' l' _ r' IH]; intros v l.
  - simpl; eauto.
  - exact (IH v' l').
Qed.

Lemma bst_find_max_In (t : tree Z) (m : Z) :
  bst_find_max t = Some m -> In m (keys t).
Proof.
  induction t as [|v l _ r IHr]; simpl; [discriminate|].
  intros H. apply in_or_app. right. destruct r as [|v' l' r'].
  - injection H as ->. left; reflexivity.
  - right. apply IHr, H.
Qed.

Lemma bst_find_max_upper (t : tree Z) (m : Z) :
  weakly_ordered t -> bst_find_max t = Some m -> all_keys (fun k => k <= m) t.
Proof.
  induction t as [|v l _ r IHr]; [simpl; trivial|].
  intros (Hl & Hr & Ol & Or) H.
  assert (Hm : In m (keys (TreeNode v l r))) by (apply bst_find_max_In, H).
  assert (Hv : v <= m).
  { simpl in Hm. apply in_app_or in Hm as [Hm|[Hm|Hm]].
    - rewrite all_keys_In in Hl. apply Hl in Hm.
      destruct r as [|v' l' r']; [simpl in H; injection H; lia|].
      change (bst_find_max (TreeNode v' l' r') = Some m) in H.
      apply bst_find_max_In in H. rewrite all_keys_In in Hr.
      apply Hr in H. lia.
    - lia.
    - rewrite all_keys_In in Hr. apply Hr in Hm. lia. }
  split; [exact Hv|]. split.
  - eapply all_keys_impl; [|exact Hl]. simpl; intros; lia.
  - destruct r as [|v' l' r']; [exact I|]. apply IHr; assumption.
Qed.

(** The three results of deleting the key stored at the root. *)
Lemma bst_delete_cases v l r :
  (l = Empty /\ bst_delete (TreeNode v l r) v = r)
  \/ (r = Empty /\ bst_delete (TreeNode v l r) v = l)
  \/ (exists m, bst_find_max l = Some m
        /\ bst_delete (TreeNode v l r) v = TreeNode m (bst_delete l m) r).
Proof.
  rewrite bst_delete_here.
  destruct l as [|lv ll lr]; [left; destruct r; auto|].
  destruct r as [|rv rl rr]; [right; left; auto|].
  right; right. destruct (bst_find_max_node lv ll lr) as [m Hm].
  exists m. rewrite Hm. auto.
Qed.

Lemma keys_delete_incl (t : tree Z) (k x : Z) :
  In x (keys (bst_delete t k)) -> In x (keys t).
Proof.
  revert k. induction t as [|v l IHl r IHr]; intros k; [trivial|].
  destruct (Z.lt_trichotomy k v) as [Hlt|[->|Hgt]].
  - rewrite bst_delete_lt by assumption. simpl. rewrite !in_app_iff. simpl.
    intros [H|H]; [left; eapply IHl, H|right; exact H].
  - destruct (bst_delete_cases v l r) as [[_ ->]|[[_ ->]|(m & Hm & ->)]];
      simpl; rewrite ?in_app_iff; simpl; auto.
    intros [H|[<-|H]]; auto.
    + left. eapply IHl, H.
    + left. apply bst_find_max_In, Hm.
  - rewrite bst_delete_gt by assumption. simpl. rewrite !in_app_iff. simpl.
    intros [H|[H|H]]; auto. right; right. eapply IHr, H.
Qed.

Lemma all_keys_delete (P : Z -> Prop) (t : tree Z) (k : Z) :
  all_keys P t -> all_keys P (bst_delete t k).
Proof.
  rewrite !all_keys_In. intros H x Hx. eapply H, keys_delete_incl, Hx.
Qed.

(** Deletion keeps the weak ordering, whatever the keys are. *)
Lemma weakly_ordered_delete (t : tree Z) (k : Z) :
  weakly_ordered t -> weakly_ordered (bst_delete t k).
Proof.
  revert k. induction t as [|v l IHl r IHr]; intros k; [trivial|].
  intros (Hl & Hr & Ol & Or).
  destruct (Z.lt_trichotomy k v) as [Hlt|[->|Hgt]].
  - rewrite bst_delete_lt by assumption.
    repeat split; auto using all_keys_delete.
  - destruct (bst_delete_cases v l r) as [[_ ->]|[[_ ->]|(m & Hm & ->)]]; auto.
    assert (Hmv : m <= v).
    { rewrite all_keys_In in Hl. apply Hl, bst_find_max_In, Hm. }
    split; [apply all_keys_delete, bst_find_max_upper; assumption|].
    split; [eapply all_keys_impl; [|exact Hr]; simpl; intros; lia|].
    split; [apply IHl; assumption|assumption].
  - rewrite bst_delete_gt by assumption.
    repeat split; auto using all_keys_delete.
Qed.

(** On a tree with distinct keys deletion removes exactly the key and keeps
    the keys distinct. *)
Lemma strictly_ordered_delete (t : tree Z) (k : Z) :
  strictly_ordered t ->
  strictly_ordered (bst_delete t k)
  /\ (forall x, In x (keys (bst_delete t k)) <-> In x (keys t) /\ x <> k).
Proof.
  revert k. induction t as [|v l IHl r IHr]; intros k.
  { intros _. split; [exact I|]. simpl. tauto. }
  intros (Hl & Hr & Ol & Or).
  pose proof Hl as Hl'. pose proof Hr as Hr'.
  rewrite all_keys_In in Hl', Hr'.
  destruct (Z.lt_trichotomy k v) as [Hlt|[->|Hgt]].
  - rewrite bst_delete_lt by assumption.
    destruct (IHl k Ol) as [Sl Kl]. split.
    + repeat split; auto using all_keys_delete.
    + intros x. simpl. rewrite !in_app_iff. simpl. rewrite Kl.
      split; [intros [[H1 H2]|[<-|H]]|]; try tauto.
      * split; [tauto|lia].
      * apply Hr' in H as H'. split; [tauto|lia].
  - destruct (bst_delete_cases v l r) as [[E ->]|[[E ->]|(m & Hm & ->)]].
    + subst l. split; [assumption|]. intros x. simpl.
      split; [intros H|intros [[H|H] Hx]]; try tauto; try congruence.
      apply Hr' in H as H'. split; [tauto|lia].
    + subst r. split; [assumption|]. intros x. simpl.
      rewrite in_app_iff. simpl.
      split; [intros H|intros [[H|[H|[]]] Hx]]; try tauto; try congruence.
      apply Hl' in H as H'. split; [tauto|lia].
    + destruct (IHl m Ol) as [Sl Kl].
      pose proof (bst_find_max_In _ _ Hm) as Hin.
      pose proof (bst_find_max_upper _ _ (strictly_ordered_weakly _ Ol) Hm) as Hup.
      rewrite all_keys_In in Hup.
      assert (Hmv : m < v) by auto.
      split.
      * split.
        { rewrite all_keys_In. intros x Hx. apply Kl in Hx as [Hx Hne].
          apply Hup in Hx. lia. }
        split; [eapply all_keys_impl; [|exact Hr]; simpl; intros; lia|].
        split; assumption.
      * intros x. simpl. rewrite !in_app_iff. simpl. rewrite Kl.
        split.
        { intros [[H _]|[<-|H]].
          - apply Hl' in H as H'. split; [tauto|lia].
          - split; [tauto|lia].
          - apply Hr' in H as H'. split; [tauto|lia]. }
        { intros [[H|[H|H]] Hx]; [|congruence|tauto].
          destruct (Z.eq_dec x m) as [->|Hne]; tauto. }
  - rewrite bst_delete_gt by assumption.
    destruct (IHr k Or) as [Sr Kr]. split.
    + repeat split; auto using all_keys_delete.
    + intros x. simpl. rewrite !in_app_iff. simpl. rewrite Kr.
      split; [intros [H|[<-|[H1 H2]]]|]; try tauto.
      * apply Hl' in H as H'. split; [tauto|lia].
      * split; [tauto|lia].
Qed.

Lemma inserts_strictly_ordered (ks : list Z) (t : tree Z) :
  NoDup ks -> strictly_ordered t -> (forall k, In k ks -> ~ In k (keys t)) ->
  strictly_ordered (fold_left bst_insert ks t)
  /\ (forall x, In x (keys (fold_left bst_insert ks t)) <-> In x ks \/ In x (keys t)).
Proof.
  revert t. induction ks as [|k ks IH]; intros t Hnd Ht Hfresh; simpl.
  - split; [assumption|tauto].
  - inversion Hnd as [|? ? Hk Hnd']; subst.
    destruct (IH (bst_insert t k)) as [S K]; try assumption.
    + apply strictly_ordered_insert; [assumption|]. apply Hfresh. left; reflexivity.
    + intros y Hy Hin. apply keys_insert in Hin as [->|Hin].
      * apply Hk. apply list_elem_of_In, Hy.
      * apply (Hfresh y); [right|]; assumption.
    + split; [assumption|]. intros x. rewrite K, keys_insert. intuition.
Qed.

Lemma deletes_strictly_ordered (ds : list Z) (t : tree Z) :
  strictly_ordered t ->
  strictly_ordered (fold_left bst_delete ds t)
  /\ (forall x, In x (keys (fold_left bst_delete ds t)) <-> In x (keys t) /\ ~ In x ds).
Proof.
  revert t. induction ds as [|d ds IH]; intros t Ht; simpl.
  - split; [assumption|tauto].
  - destruct (strictly_ordered_delete t d Ht) as [S K].
    destruct (IH _ S) as [S' K']. split; [assumption|].
    intros x. rewrite K', K. intuition.
Qed.

(** Every run keeps the tree weakly ordered. *)
Lemma run_weakly_ordered (ops : list op) : weakly_ordered (run ops).
Proof.
  unfold run. generalize (I : weakly_ordered Empty).
  generalize (@Empty Z). induction ops as [|o ops IH]; intros t Ht; simpl.
  - exact Ht.
  - apply IH. destruct o; simpl;
      [apply weakly_ordered_insert|apply weakly_ordered_delete]; assumption.
Qed.

(** Insertions alone keep the invariant of the specification. *)
Lemma inserts_ordered (ks : list Z) (t : tree Z) :
  ordered t -> ordered (fold_left bst_insert ks t).
Proof.
  revert t. induction ks as [|k ks IH]; intros t Ht; simpl; [assumption|].
  apply IH, ordered_insert, Ht.
Qed.

(** bst_height on the empty tree, on one node, and on 5, 3, 8, 1. *)
Example bst_height_examples :
  bst_height Empty = 0
  /\ bst_height (bst_insert Empty 5) = 1
  /\ bst_height (fold_left bst_insert [5; 3; 8; 1] Empty) = 3.
Proof. repeat split. Qed.

(** C1, as stated: after the insertions 5,3,8,1,4,7,9 and the deletion of 3
    the node that held 3 would hold 4 with 1 as its left child.  It does
    not: 4 is in the right subtree of 3, not in its left subtree. *)
Lemma C1_counterexample :
  ~ (exists ll lr r, left_of (bst_delete example_tree 3)
                     = TreeNode 4 (TreeNode 1 ll lr) r).
Proof. intros (ll & lr & r & H). vm_compute in H. discriminate H. Qed.

(** C1, amended: in the example tree the left subtree of 3 is the single
    node 1, so its maximum is 1; deleting 3 stores 1 in the node that held 3,
    empties its left link and leaves 4 as its right child. *)
Theorem C1_delete_two_children :
  example_tree
  = TreeNode 5 (TreeNode 3 (TreeNode 1 Empty Empty) (TreeNode 4 Empty Empty))
               (TreeNode 8 (TreeNode 7 Empty Empty) (TreeNode 9 Empty Empty))
  /\ bst_find_max (left_of (left_of example_tree)) = Some 1
  /\ bst_delete example_tree 3
     = TreeNode 5 (TreeNode 1 Empty (TreeNode 4 Empty Empty))
                  (TreeNode 8 (TreeNode 7 Empty Empty) (TreeNode 9 Empty Empty)).
Proof. repeat split; reflexivity. Qed.

(** C2: the ordering invariant (left keys strictly smaller, right keys
    greater or equal) after every run of insertions and deletions.  The code
    breaks it: with the key 3 inserted twice, deleting 5 promotes one 3 and
    leaves the other in its left subtree. *)
Theorem C2_delete_breaks_ordering :
  run [Insert 5; Insert 3; Insert 3; Insert 8; Delete 5]
  = TreeNode 3 (TreeNode 3 Empty Empty) (TreeNode 8 Empty Empty)
  /\ ordered (run [Insert 5; Insert 3; Insert 3; Insert 8])
  /\ ~ ordered (run [Insert 5; Insert 3; Insert 3; Insert 8; Delete 5]).
Proof.
  split; [reflexivity|]. split.
  - unfold run; simpl. repeat split; lia.
  - unfold run; simpl. intros ((H & _) & _). lia.
Qed.

(** C3: distinct keys inserted into the empty tree, then any deletions:
    [bst_search] finds exactly the keys inserted and not deleted. *)
Theorem C3_search_iff (ks ds : list Z) (k : Z) :
  NoDup ks ->
  bst_search (fold_left bst_delete ds (fold_left bst_insert ks Empty)) k = true
  <-> In k ks /\ ~ In k ds.
Proof.
  intros Hnd.
  destruct (inserts_strictly_ordered ks Empty Hnd I) as [S K]; [simpl; tauto|].
  destruct (deletes_strictly_ordered ds _ S) as [S' K'].
  rewrite bst_search_In by (apply strictly_ordered_weakly, S').
  rewrite K', K. simpl. tauto.
Qed.

Lemma C3_search_iff_witness :
  bst_search (fold_left bst_delete [3; 6] (fold_left bst_insert [5; 3; 8] Empty)) 5
  = true <-> In 5 [5; 3; 8] /\ ~ In 5 [3; 6].
Proof.
  apply (C3_search_iff [5; 3; 8] [3; 6] 5).
  repeat constructor; rewrite ?list_elem_of_In; simpl; lia.
Defined.

End NumBSTFacts.

(** ** Linked stack *)

Section StackFacts.
Context {A : Type}.

Lemma to_list_loop_app (cur : Node A) (items : list A) :
  Stack.to_list_loop cur items = items ++ Stack.to_list_loop cur [].
Proof.
  revert items. induction cur as [|d l IHl r _]; intros items; simpl.
  - symmetry. apply app_nil_r.
  - rewrite (IHl (items ++ [d])), (IHl [d]). symmetry. apply app_assoc.
Qed.

Lemma to_list_push (s : Stack.Stack A) (x : A) :
  Stack.to_list (Stack.push s x) = x :: Stack.to_list s.
Proof. unfold Stack.to_list. simpl. apply (to_list_loop_app _ [x]). Qed.

Lemma to_list_push_all (xs : list A) (s : Stack.Stack A) :
  Stack.to_list (fold_left Stack.push xs s) = rev xs ++ Stack.to_list s.
Proof.
  revert s. induction xs as [|x xs IH]; intros s; simpl; [reflexivity|].
  rewrite IH, to_list_push, <- app_assoc. reflexivity.
Qed.

Lemma length_push_all (xs : list A) (s : Stack.Stack A) :
  Stack.length (fold_left Stack.push xs s)
  = Stack.length s + Z.of_nat (List.length xs).
Proof.
  revert s. induction xs as [|x xs IH]; intros s; simpl List.length; simpl fold_left.
  - lia.
  - rewrite IH. simpl. lia.
Qed.

(** C9: after pushing the values of [xs] one after the other on a new
    stack, [to_list] is [xs] reversed, the last pushed value first. *)
Theorem C9_to_list_rev (xs : list A) :
  Stack.to_list (fold_left Stack.push xs Stack.new) = rev xs.
Proof. rewrite to_list_push_all. apply app_nil_r. Qed.

End StackFacts.

(** ** Depth-first substring search *)

Section FeedBSTFacts.
Import Text FeedBST.
Open Scope string_scope.
Open Scope list_scope.

Lemma append_String (c : ascii) (a b : string) :
  String c a +:+ b = String c (a +:+ b).
Proof. reflexivity. Qed.

(** On every pair of characters, being the same letter up to case is having
    the same image under [lower_char]. *)
Lemma same_letter_lower (a b : ascii) :
  same_letter a b = Ascii.eqb (lower_char a) (lower_char b).
Proof.
  set (all := map ascii_of_nat (seq 0 256)).
  assert (Hall : forall c, In c all).
  { intros c. rewrite <- (ascii_nat_embedding c). apply in_map, in_seq.
    pose proof (nat_ascii_bounded c). lia. }
  assert (H : forallb (fun x => forallb (fun y =>
                Bool.eqb (same_letter x y)
                  (Ascii.eqb (lower_char x) (lower_char y))) all) all = true)
    by (vm_compute; reflexivity).
  rewrite forallb_forall in H. specialize (H a (Hall a)).
  rewrite forallb_forall in H. specialize (H b (Hall b)).
  apply Bool.eqb_prop, H.
Qed.

Lemma prefix_lower (q s : string) :
  String.prefix (lower q) (lower s) = ci_prefix q s.
Proof.
  revert s. induction q as [|a q IH]; intros s.
  - destruct s; reflexivity.
  - destruct s as [|b s]; [reflexivity|].
    cbn [lower ci_prefix String.prefix]. rewrite same_letter_lower, <- IH.
    destruct (ascii_dec (lower_char a) (lower_char b)) as [E|E].
    + rewrite E, Ascii.eqb_refl. reflexivity.
    + apply Ascii.eqb_neq in E. rewrite E. reflexivity.
Qed.

Lemma contains_lower (q s : string) :
  contains (lower q) (lower s) = ci_contains q s.
Proof.
  induction s as [|c s IH]; cbn [ci_contains].
  - rewrite <- prefix_lower. reflexivity.
  - rewrite <- prefix_lower, <- IH. reflexivity.
Qed.



(** The visit of one node: the value is appended if it is a string that
    contains [w], and nothing is raised otherwise. *)
Lemma visit_node (w : string) (d : pyval) (results : list pyval) :
  try_except_Exception
    (low ← py_lower d;
     found ← py_in w low;
     Ok (if found : bool then results ++ [d] else results))
    (Ok results)
  = Ok (results ++ List.filter (hit w) [d]).
Proof.
  destruct d as [|z|s|b]; simpl; try (rewrite app_nil_r; reflexivity).
  destruct (contains w (lower s)); [reflexivity|].
  rewrite app_nil_r; reflexivity.
Qed.

(** With a call left for every level of the tree and one for the empty
    links below, [walk] returns the matching values in preorder. *)
Lemma walk_filter (limit : nat) (w : string) (t : Node pyval)
    (results : list pyval) :
  (height t < limit)%nat ->
  walk limit w t results = Ok (results ++ List.filter (hit w) (preorder t)).
Proof.
  revert t results. induction limit as [|limit IH]; intros t results Hh; [lia|].
  destruct t as [|d l r]; cbn [walk].
  - simpl. rewrite app_nil_r. reflexivity.
  - simpl in Hh. rewrite visit_node. cbn [mbind result_bind].
    rewrite IH by lia. cbn [mbind result_bind]. rewrite IH by lia.
    cbn [preorder]. change (d :: preorder l ++ preorder r)
      with ([d] ++ preorder l ++ preorder r).
    rewrite !List.filter_app, <- !app_assoc. reflexivity.
Qed.

(** On a tree at least as high as the number of calls left, [walk] raises
    RecursionError. *)
Lemma walk_too_deep (limit : nat) (w : string) (t : Node pyval)
    (results : list pyval) :
  (limit <= height t)%nat -> walk limit w t results = Raise RecursionError.
Proof.
  revert t results. induction limit as [|limit IH]; intros t results Hh;
    [reflexivity|].
  destruct t as [|d l r]; simpl in Hh; [lia|].
  cbn [walk]. rewrite visit_node. cbn [mbind result_bind].
  destruct (le_lt_dec limit (height l)) as [Hl|Hl].
  - rewrite IH by exact Hl. reflexivity.
  - rewrite walk_filter by exact Hl. cbn [mbind result_bind].
    apply IH. lia.
Qed.

Lemma hit_lower (q : string) (v : pyval) : hit (lower q) v = matches q v.
Proof. destruct v; try reflexivity. apply contains_lower. Qed.

Lemma filter_hit_lower (q : string) (l : list pyval) :
  List.filter (hit (lower q)) l = List.filter (matches q) l.
Proof.
  induction l as [|v l IH]; simpl; [reflexivity|].
  rewrite hit_lower, IH. reflexivity.
Qed.

Lemma preorder_values {X Y} (f : X -> Y) (t : Node X) :
  preorder (values f t) = map f (preorder t).
Proof.
  induction t as [|d l IHl r IHr]; simpl; [reflexivity|].
  rewrite IHl, IHr, map_app. reflexivity.
Qed.

Lemma height_values {X Y} (f : X -> Y) (t : Node X) :
  height (values f t) = height t.
Proof.
  induction t as [|d l IHl r IHr]; simpl; [reflexivity|].
  rewrite IHl, IHr. reflexivity.
Qed.

Lemma filter_matches_PyStr (q : string) (l : list string) :
  List.filter (matches q) (map PyStr l)
  = map PyStr (List.filter (ci_contains q) l).
Proof.
  induction l as [|s l IH]; simpl; [reflexivity|].
  destruct (ci_contains q s); simpl; rewrite IH; reflexivity.
Qed.


(** The result of dfs_search for a query that is not empty. *)
Lemma dfs_search_within (limit : nat) (t : Node pyval) (q : string) :
  q <> "" -> (height t < limit)%nat ->
  dfs_search limit t q = Ok (List.filter (matches q) (preorder t)).
Proof.
  intros Hq Hh. unfold dfs_search.
  destruct (String.eqb_spec q ""); [contradiction|].
  rewrite walk_filter by exact Hh. rewrite filter_hit_lower. reflexivity.
Qed.

Lemma dfs_search_too_deep (limit : nat) (t : Node pyval) (q : string) :
  q <> "" -> (limit <= height t)%nat ->
  dfs_search limit t q = Raise RecursionError.
Proof.
  intros Hq Hh. unfold dfs_search.
  destruct (String.eqb_spec q ""); [contradiction|].
  apply walk_too_deep, Hh.
Qed.



(** The search example of the specification. *)
Example perform_bst_search_example :
  perform_bst_search 10 example_titles "tree" = Ok [PyStr "Binary Trees"].
Proof. reflexivity. Qed.




End FeedBSTFacts.

(** ** Level-order insertion *)

Section GenericTreeFacts.
Import GenericTree.
Context {A : Type}.
Implicit Types (f d a : list (path * tree A)) (x : path * tree A).
Local Open Scope nat_scope.

Lemma forest_size_app f g :
  forest_size (f ++ g) = forest_size f + forest_size g.
Proof. induction f as [|x f IH]; simpl; [reflexivity|]. rewrite IH. lia. Qed.

Lemma forest_height_app f g :
  forest_height (f ++ g) = Nat.max (forest_height f) (forest_height g).
Proof. induction f as [|x f IH]; simpl; [reflexivity|]. rewrite IH. lia. Qed.

Lemma next_level_app f g : next_level (f ++ g) = next_level f ++ next_level g.
Proof. apply flat_map_app. Qed.

Lemma levels_nil h : levels h (@nil (path * tree A)) = [].
Proof. induction h as [|h IH]; simpl; [reflexivity|exact IH]. Qed.

Lemma child_nodes_size x : forest_size (child_nodes x) = pred (size (snd x)).
Proof.
  destruct x as [p [|v [|lv ll lr] [|rv rl rr]]]; simpl; lia.
Qed.

Lemma child_nodes_height x :
  forest_height (child_nodes x) = pred (height (snd x)).
Proof.
  destruct x as [p [|v [|lv ll lr] [|rv rl rr]]]; simpl; lia.
Qed.

Lemma child_nodes_is_node x : Forall is_node (child_nodes x).
Proof.
  destruct x as [p [|v [|lv ll lr] [|rv rl rr]]]; simpl; repeat constructor.
Qed.

Lemma next_level_height f :
  forest_height (next_level f) = pred (forest_height f).
Proof.
  induction f as [|x f IH]; simpl; [reflexivity|].
  rewrite forest_height_app, child_nodes_height, IH. lia.
Qed.

Lemma next_level_is_node f : Forall is_node (next_level f).
Proof.
  induction f as [|x f IH]; simpl; [constructor|].
  apply Forall_app. split; [apply child_nodes_is_node|exact IH].
Qed.

Lemma is_full_free_slot x : is_full x -> free_slot x = None.
Proof.
  destruct x as [p [|v [|lv ll lr] [|rv rl rr]]]; simpl; tauto.
Qed.

Lemma is_full_child_nodes x :
  is_full x ->
  exists v l r, snd x = TreeNode v l r
    /\ child_nodes x = [(fst x ++ [SlotLeft], l); (fst x ++ [SlotRight], r)].
Proof.
  destruct x as [p [|v [|lv ll lr] [|rv rl rr]]]; simpl; try tauto.
  intros _. eauto.
Qed.

Lemma first_free_app_full d f :
  Forall is_full d -> first_free (d ++ f) = first_free f.
Proof.
  induction 1 as [|x d Hx _ IH]; simpl; [reflexivity|].
  rewrite (is_full_free_slot x Hx). exact IH.
Qed.

Lemma first_free_app_Some f g ps :
  first_free f = Some ps -> first_free (f ++ g) = Some ps.
Proof.
  induction f as [|x f IH]; simpl; [discriminate|].
  destruct (free_slot x); auto.
Qed.

Lemma first_free_None_full f :
  Forall is_node f -> first_free f = None -> Forall is_full f.
Proof.
  induction 1 as [|x f Hx _ IH]; simpl; [constructor|].
  destruct (free_slot x) eqn:E; [discriminate|].
  intros H. constructor; [|apply IH, H].
  destruct x as [p [|v [|lv ll lr] [|rv rl rr]]]; simpl in *;
    try discriminate; tauto.
Qed.

(** One turn of the loop on a non-empty queue, given the result for all
    queues with less fuel. *)
Lemma insert_loop_pop (fuel : nat) :
  (forall d a h,
      Forall is_full d -> Forall is_node a ->
      forest_size (a ++ next_level d) < fuel ->
      forest_height (d ++ a) <= h ->
      insert_loop fuel (a ++ next_level d)
      = Some (Ok (first_free (levels h (d ++ a))))) ->
  forall d x a h,
    Forall is_full d -> Forall is_node (x :: a) ->
    forest_size ((x :: a) ++ next_level d) < S fuel ->
    forest_height (d ++ x :: a) <= h ->
    insert_loop (S fuel) ((x :: a) ++ next_level d)
    = Some (Ok (first_free (levels h (d ++ x :: a)))).
Proof.
  intros IH d x a h Hd Hxa Hsize Hh.
  apply Forall_cons in Hxa as [Hx Ha].
  rewrite forest_height_app in Hh. simpl in Hh.
  destruct h as [|h]; [destruct x as [p [|]]; simpl in *; [tauto|lia]|].
  cbn [levels]. rewrite <- app_assoc, (first_free_app_full d) by assumption.
  destruct x as [p [|v l r]]; [destruct Hx|].
  destruct l as [|lv ll lr]; [reflexivity|].
  destruct r as [|rv rl rr]; [reflexivity|].
  set (l := TreeNode lv ll lr) in *. set (r := TreeNode rv rl rr) in *.
  assert (Hfull : is_full (p, TreeNode v l r)) by exact I.
  assert (Hfree : free_slot (p, TreeNode v l r) = None) by reflexivity.
  change (insert_loop (S fuel) (((p, TreeNode v l r) :: a) ++ next_level d))
    with (insert_loop fuel
            (((a ++ next_level d) ++ [(p ++ [SlotLeft], l)])
             ++ [(p ++ [SlotRight], r)])).
  replace (((a ++ next_level d) ++ [(p ++ [SlotLeft], l)])
           ++ [(p ++ [SlotRight], r)])
    with (a ++ next_level (d ++ [(p, TreeNode v l r)])).
  2:{ rewrite next_level_app, <- !app_assoc. reflexivity. }
  rewrite (IH (d ++ [(p, TreeNode v l r)]) a (S h)).
  - cbn [levels]. rewrite <- !app_assoc.
    rewrite (first_free_app_full d) by assumption.
    cbn [app first_free]. rewrite Hfree. reflexivity.
  - apply Forall_app. split; [assumption|]. constructor; [exact I|constructor].
  - assumption.
  - pose proof (child_nodes_size (p, TreeNode v l r)) as Hc.
    revert Hsize. rewrite next_level_app, !forest_size_app.
    change (next_level [(p, TreeNode v l r)])
      with (child_nodes (p, TreeNode v l r) ++ []).
    rewrite app_nil_r, Hc. simpl. intros Hsize. lia.
  - rewrite <- app_assoc, forest_height_app. simpl in *. lia.
Qed.

(** With the nodes of [d] visited and found full and those of [a] still
    pending, the loop returns the first free slot of the level-by-level
    listing that starts with the level [d ++ a]. *)
Lemma insert_loop_levels (fuel : nat) d a h :
  Forall is_full d -> Forall is_node a ->
  forest_size (a ++ next_level d) < fuel ->
  forest_height (d ++ a) <= h ->
  insert_loop fuel (a ++ next_level d)
  = Some (Ok (first_free (levels h (d ++ a)))).
Proof.
  revert d a h. induction fuel as [|fuel IH]; intros d a h Hd Ha Hsize Hh; [lia|].
  destruct a as [|x a]; [|apply insert_loop_pop; assumption].
  rewrite app_nil_r in *. cbn [app].
  destruct d as [|y d].
  { simpl. rewrite levels_nil. reflexivity. }
  destruct h as [|h].
  { apply Forall_cons in Hd as [Hy _].
    destruct y as [p [|v l r]]; simpl in *; [tauto|lia]. }
  cbn [levels]. rewrite first_free_app_full by assumption.
  destruct (next_level (y :: d)) as [|z b] eqn:E.
  { simpl. rewrite levels_nil. reflexivity. }
  pose proof (insert_loop_pop fuel IH [] z b h) as Hpop.
  cbn [app next_level flat_map] in Hpop. rewrite app_nil_r in Hpop.
  apply Hpop.
  - constructor.
  - rewrite <- E. apply next_level_is_node.
  - assumption.
  - rewrite <- E, next_level_height. lia.
Qed.

(** A forest of nodes has a free slot within as many levels as it is
    high. *)
Lemma first_free_levels_Some h f :
  f <> [] -> Forall is_node f -> forest_height f <= h ->
  exists ps, first_free (levels h f) = Some ps.
Proof.
  revert f. induction h as [|h IH]; intros f Hne Hf Hh.
  { destruct f as [|[p [|v l r]] f]; [congruence| |]; simpl in *.
    - apply Forall_cons in Hf as [[] _].
    - lia. }
  cbn [levels]. destruct (first_free f) as [ps|] eqn:E.
  { exists ps. apply first_free_app_Some, E. }
  pose proof (first_free_None_full f Hf E) as Hfull.
  rewrite first_free_app_full by assumption.
  apply IH.
  - destruct f as [|x f]; [congruence|].
    apply Forall_cons in Hfull as [Hx _].
    destruct (is_full_child_nodes x Hx) as (v & l & r & _ & Hc).
    simpl. rewrite Hc. discriminate.
  - apply next_level_is_node.
  - rewrite next_level_height. lia.
Qed.

End GenericTreeFacts.

(** ** Validation in the /bst routes *)

Section RoutesFacts.
Import NumBST Routes.

Lemma rstrip_cons (c : ascii) (s : string) :
  rstrip (String c s) =
    match rstrip s with
    | EmptyString => if is_space c then EmptyString else String c EmptyString
    | t => String c t
    end.
Proof. reflexivity. Qed.

Lemma rstrip_idem (s : string) : rstrip (rstrip s) = rstrip s.
Proof.
  induction s as [|c s IH]; [reflexivity|].
  rewrite rstrip_cons. destruct (rstrip s) as [|c' t] eqn:E.
  - destruct (is_space c) eqn:Hc; [reflexivity|].
    rewrite rstrip_cons. simpl. rewrite Hc. reflexivity.
  - rewrite rstrip_cons, IH. reflexivity.
Qed.

Lemma lstrip_head (s : string) :
  lstrip s = EmptyString
  \/ exists c t, lstrip s = String c t /\ is_space c = false.
Proof.
  induction s as [|c s IH]; [left; reflexivity|].
  cbn [lstrip]. destruct (is_space c) eqn:Hc; [exact IH|].
  right. exists c, s. auto.
Qed.

Lemma lstrip_rstrip_lstrip (s : string) :
  lstrip (rstrip (lstrip s)) = rstrip (lstrip s).
Proof.
  destruct (lstrip_head s) as [->|(c & t & -> & Hc)]; [reflexivity|].
  rewrite rstrip_cons. destruct (rstrip t); rewrite ?Hc; cbn [lstrip];
    rewrite Hc; reflexivity.
Qed.

Lemma strip_idem (s : string) : strip (strip s) = strip s.
Proof.
  unfold strip. rewrite lstrip_rstrip_lstrip. apply rstrip_idem.
Qed.

(** A string that does not parse once stripped: /bst/insert answers with a
    failure and leaves the tree as it is. *)
Lemma bst_insert_route_string_fail (s : string) (root : tree Z) (e : exn) :
  py_int (JStr (strip s)) = Raise e ->
  exists err, bst_insert_route (Some (JStr s)) root = Ok (Failure err, root).
Proof.
  intros H. unfold bst_insert_route. cbn [get_value_or_empty py_strip mbind result_bind].
  destruct (String.eqb (strip s) ""); [eauto|].
  rewrite H. eauto.
Qed.

(** Any value that does not parse: /bst/search and /bst/delete answer with a
    failure and leave the tree as it is. *)
Lemma bst_search_route_fail (value : option json) (root : tree Z) (e : exn) :
  py_int (get_value value) = Raise e ->
  bst_search_route value root = Ok (Failure None, root).
Proof. intros H. unfold bst_search_route. rewrite H. reflexivity. Qed.

Lemma bst_delete_route_fail (value : option json) (root : tree Z) (e : exn) :
  py_int (get_value value) = Raise e ->
  bst_delete_route value root = Ok (Failure None, root).
Proof. intros H. unfold bst_delete_route. rewrite H. reflexivity. Qed.

(** /bst/insert raises exactly when the value is present and not a string. *)
Lemma bst_insert_route_raises_iff (value : option json) (root : tree Z) :
  (exists e, bst_insert_route value root = Raise e)
  <-> (exists x, value = Some x /\ forall s, x <> JStr s).
Proof.
  unfold bst_insert_route. split.
  - intros [e H]. destruct value as [x|]; cbn in H.
    + exists x. split; [reflexivity|]. intros s ->. cbn in H.
      destruct (String.eqb (strip s) ""); [discriminate|].
      destruct (int_of_str (strip s)); discriminate.
    + discriminate.
  - intros (x & -> & Hx). destruct x; cbn; eauto. exfalso. eapply Hx. reflexivity.
Qed.

(** C8: a value that does not parse as an integer gives a failure answer,
    an unchanged tree and no exception.  /bst/search and /bst/delete do so
    on [null]; /bst/insert calls [.strip()] on it outside the [try] and
    raises AttributeError. *)
Theorem C8_insert_route_raises_on_null (root : tree Z) :
  py_int JNull = Raise TypeError
  /\ bst_insert_route (Some JNull) root = Raise AttributeError
  /\ bst_search_route (Some JNull) root = Ok (Failure None, root)
  /\ bst_delete_route (Some JNull) root = Ok (Failure None, root).
Proof. repeat split. Qed.

End RoutesFacts.

(** ** Linked queue *)

Section QueueFacts.
Import Queue.
Context {A : Type}.
Implicit Types (st : list (cell A)) (q : QueueLinked A) (l : list A).

Lemma repr_new : repr (@new A) [].
Proof. split; reflexivity. Qed.

Lemma seg_end st r l t :
  seg st r l t -> exists c, st !! t = Some c /\ right c = None.
Proof. induction 1; eauto. Qed.

Lemma seg_nonempty st r l t : seg st r l t -> l <> [].
Proof. destruct 1; discriminate. Qed.

(** Linking a new cell behind the last one extends the chain. *)
Lemma seg_snoc st h l t (x : A) :
  seg st h l t ->
  exists c,
    (st ++ [mkCell x None None]) !! t = Some c
    /\ seg (<[t := set_right (Some (List.length st)) c]> (st ++ [mkCell x None None]))
         h (l ++ [x]) (List.length st).
Proof.
  set (n := List.length st). set (st1 := st ++ [mkCell x None None]).
  assert (Hn : st1 !! n = Some (mkCell x None None))
    by (apply list_lookup_middle; reflexivity).
  induction 1 as [r c Hr Hc|r c r' l last Hr Hc Hseg IH].
  - assert (Hlt : (r < n)%nat) by (eapply lookup_lt_Some, Hr).
    assert (Hr1 : st1 !! r = Some c) by (apply lookup_app_l_Some, Hr).
    exists c. split; [exact Hr1|].
    apply (seg_next _ r (set_right (Some n) c) n [x] n).
    + apply list_lookup_insert_eq. eapply lookup_lt_Some, Hr1.
    + reflexivity.
    + apply (seg_last _ n (mkCell x None None)); [|reflexivity].
      rewrite list_lookup_insert_ne by lia. exact Hn.
  - destruct IH as (c0 & Hc0 & IH). exists c0. split; [exact Hc0|].
    destruct (seg_end _ _ _ _ Hseg) as (c1 & Hc1 & Hnone).
    assert (Hne : last <> r).
    { intros ->. rewrite Hr in Hc1. injection Hc1 as ->. congruence. }
    apply (seg_next _ r c r' (l ++ [x]) n); [|exact Hc|exact IH].
    rewrite list_lookup_insert_ne by exact Hne.
    apply lookup_app_l_Some, Hr.
Qed.

Lemma enqueue_repr q l (x : A) :
  repr q l -> exists q', enqueue q x = Ok q' /\ repr q' (l ++ [x]).
Proof.
  intros [Hlen Hl]. unfold enqueue. destruct l as [|y l].
  - rewrite Hl. eexists. split; [reflexivity|]. split.
    + simpl. rewrite Hlen. reflexivity.
    + simpl. exists (List.length (store q)), (List.length (store q)).
      split; [reflexivity|]. split; [reflexivity|].
      apply (seg_last _ _ (mkCell x None None)); [|reflexivity].
      apply list_lookup_middle. reflexivity.
  - destruct Hl as (h & t & Hh & Ht & Hseg). rewrite Hh, Ht.
    destruct (seg_snoc _ _ _ _ x Hseg) as (c & Hc & Hseg').
    unfold deref. rewrite Hc. cbn [mbind result_bind].
    eexists. split; [reflexivity|]. split.
    + cbn [length]. rewrite Hlen, length_app. simpl List.length. lia.
    + cbn [app]. exists h, (List.length (store q)).
      split; [reflexivity|]. split; [reflexivity|]. exact Hseg'.
Qed.

Lemma dequeue_repr_empty q : repr q [] -> dequeue q = Ok (None, q).
Proof. intros [Hlen _]. unfold dequeue. rewrite Hlen. reflexivity. Qed.

Lemma dequeue_repr_cons q (x : A) l :
  repr q (x :: l) -> exists q', dequeue q = Ok (Some x, q') /\ repr q' l.
Proof.
  intros [Hlen (h & t & Hh & Ht & Hseg)]. unfold dequeue.
  destruct (Z.eqb_spec (length q) 0) as [E|_];
    [rewrite Hlen in E; simpl in E; lia|].
  rewrite Hh. unfold deref.
  inversion Hseg as [r c Hr Hc|r c r' l' last Hr Hc Hseg']; subst;
    rewrite Hr; cbn [mbind result_bind]; eexists; (split; [reflexivity|]).
  - split; [cbn [length]; rewrite Hlen; simpl; lia|exact Hc].
  - split; [cbn [length]; rewrite Hlen; simpl List.length; lia|].
    destruct l as [|y l]; [destruct (seg_nonempty _ _ _ _ Hseg'); reflexivity|].
    exists r', t. cbn [head tail store]. auto.
Qed.

(** Every run on the linked queue returns, and returns what the list of the
    specification returns. *)
Lemma run_refines (ops : list (op A)) q l :
  repr q l ->
  exists q', run ops q = Ok ((fifo_run ops l).1, q')
             /\ repr q' (fifo_run ops l).2.
Proof.
  revert q l. induction ops as [|[x|] ops IH]; intros q l Hq.
  - exists q. split; [reflexivity|exact Hq].
  - destruct (enqueue_repr q l x Hq) as (q1 & E1 & H1).
    destruct (IH q1 _ H1) as (q' & E' & H').
    exists q'. cbn [run fifo_run]. rewrite E1. cbn [mbind result_bind].
    split; assumption.
  - destruct l as [|y l].
    + destruct (IH q [] Hq) as (q' & E' & H').
      exists q'. cbn [run fifo_run]. rewrite (dequeue_repr_empty q Hq).
      cbn [mbind result_bind]. rewrite E'. cbn [mbind result_bind].
      destruct (fifo_run ops []) as [rs l']. split; [reflexivity|exact H'].
    + destruct (dequeue_repr_cons q y l Hq) as (q1 & E1 & H1).
      destruct (IH q1 l H1) as (q' & E' & H').
      exists q'. cbn [run fifo_run]. rewrite E1.
      cbn [mbind result_bind]. rewrite E'. cbn [mbind result_bind].
      destruct (fifo_run ops l) as [rs l']. split; [reflexivity|exact H'].
Qed.

(** In the list model the values handed out, followed by those still
    stored, are the values put in, in the order they were put in. *)
Lemma fifo_run_order (ops : list (op A)) l :
  returned (fifo_run ops l).1 ++ (fifo_run ops l).2 = l ++ enqueued ops.
Proof.
  revert l. induction ops as [|[x|] ops IH]; intros l; cbn [fifo_run enqueued].
  - simpl. symmetry. apply app_nil_r.
  - rewrite IH, <- app_assoc. reflexivity.
  - destruct l as [|y l].
    + specialize (IH []). destruct (fifo_run ops []) as [rs l']. exact IH.
    + specialize (IH l). destruct (fifo_run ops l) as [rs l'].
      simpl in *. rewrite IH. reflexivity.
Qed.

Lemma repr_head_implies_tail q l : repr q l -> head_implies_tail q.
Proof.
  intros [_ Hl] Hhead. destruct l as [|x l]; [contradiction|].
  destruct Hl as (h & t & _ & Ht & _). rewrite Ht. discriminate.
Qed.

(** C4, amended: after every sequence of enqueue and dequeue calls on a new
    queue (none of which raises), whenever [head] is set [tail] is set
    too. *)
Theorem C4_head_implies_tail (ops : list (op A)) :
  exists outs q, run ops new = Ok (outs, q) /\ head_implies_tail q.
Proof.
  destruct (run_refines ops new [] repr_new) as (q & E & H).
  exists (fifo_run ops []).1, q. split; [exact E|].
  eapply repr_head_implies_tail, H.
Qed.

(** C5: every sequence of enqueue and dequeue calls on a new queue returns;
    each dequeue yields what the first-in-first-out list of the
    specification yields, [None] when it is empty; and the values handed
    out, followed by those still stored, are the enqueued values in the
    order of their enqueue calls. *)
Theorem C5_fifo_order (ops : list (op A)) :
  exists q outs contents,
    run ops new = Ok (outs, q)
    /\ fifo_run ops [] = (outs, contents)
    /\ repr q contents
    /\ returned outs ++ contents = enqueued ops.
Proof.
  destruct (run_refines ops new [] repr_new) as (q & E & H).
  pose proof (fifo_run_order ops []) as Hord.
  destruct (fifo_run ops []) as [outs contents].
  exists q, outs, contents. auto.
Qed.

End QueueFacts.

(** C4, as stated: a set [tail] would imply a set [head].  After one
    enqueue and one dequeue [head] is [None] and [tail] still refers to the
    node that was removed. *)
Lemma C4_counterexample :
  exists outs q,
    Queue.run [Queue.Enqueue 7; Queue.Dequeue] Queue.new = Ok (outs, q)
    /\ ~ Queue.tail_implies_head q.
Proof.
  eexists _, _. split; [reflexivity|].
  intros H. apply H; [discriminate|reflexivity].
Qed.

(** The example of the specification: enqueue 1, enqueue 2, then two
    dequeues return 1 and 2; a third returns [None]. *)
Example queue_example :
  exists q,
    Queue.run [Queue.Enqueue 1; Queue.Enqueue 2; Queue.Dequeue; Queue.Dequeue;
               Queue.Dequeue] Queue.new
    = Ok ([Some 1; Some 2; None], q).
Proof. eexists. reflexivity. Qed.

(** ** Integer binary search tree: keys as a bag, maximum, height *)

Section NumBSTBagFacts.
Import NumBST NumBSTBag.

Lemma keys_insert_perm (t : tree Z) (k : Z) :
  Permutation (keys (bst_insert t k)) (k :: keys t).
Proof.
  induction t as [|v l IHl r IHr]; simpl; [reflexivity|].
  destruct (k <? v); simpl.
  - rewrite IHl. reflexivity.
  - rewrite IHr, (perm_swap k v (keys r)). symmetry.
    apply (Permutation_middle (keys l) (v :: keys r) k).
Qed.

Lemma bst_delete_absent (t : tree Z) (k : Z) :
  ~ In k (keys t) -> bst_delete t k = t.
Proof.
  induction t as [|v l IHl r IHr]; [reflexivity|].
  intros H. simpl in H. rewrite in_app_iff in H. simpl in H.
  destruct (Z.lt_trichotomy k v) as [Hlt|[->|Hgt]]; [| tauto |].
  - rewrite bst_delete_lt, IHl by tauto. reflexivity.
  - rewrite bst_delete_gt, IHr by tauto. reflexivity.
Qed.

Lemma keys_delete_perm (t : tree Z) (k : Z) :
  weakly_ordered t -> In k (keys t) ->
  Permutation (keys t) (k :: keys (bst_delete t k)).
Proof.
  revert k. induction t as [|v l IHl r IHr]; intros k; [intros _ []|].
  intros (Hl & Hr & Ol & Or) Hin.
  rewrite all_keys_In in Hl, Hr.
  simpl in Hin. rewrite in_app_iff in Hin. simpl in Hin.
  destruct (Z.lt_trichotomy k v) as [Hlt|[->|Hgt]].
  - assert (Hk : In k (keys l)).
    { destruct Hin as [H|[H|H]]; [assumption|lia|apply Hr in H; lia]. }
    rewrite bst_delete_lt by assumption. simpl.
    rewrite (IHl k Ol Hk) at 1. reflexivity.
  - destruct (bst_delete_cases v l r) as [[-> ->]|[[-> ->]|(m & Hm & ->)]].
    + reflexivity.
    + simpl. symmetry. apply Permutation_cons_append.
    + simpl. rewrite (IHl m Ol (bst_find_max_In _ _ Hm)) at 1. simpl.
      rewrite <- (Permutation_middle (keys (bst_delete l m)) (keys r) m).
      rewrite <- (Permutation_middle (m :: keys (bst_delete l m)) (keys r) v).
      reflexivity.
  - assert (Hk : In k (keys r)).
    { destruct Hin as [H|[H|H]]; [apply Hl in H; lia|lia|assumption]. }
    rewrite bst_delete_gt by assumption. simpl.
    rewrite (IHr k Or Hk) at 1.
    rewrite (perm_swap k v (keys (bst_delete r k))). symmetry.
    apply (Permutation_middle (keys l) (v :: keys (bst_delete r k)) k).
Qed.

Lemma remove_one_absent (k : Z) (b : list Z) : ~ In k b -> remove_one k b = b.
Proof.
  induction b as [|x b IH]; simpl; [reflexivity|]. intros H.
  destruct (Z.eqb_spec x k); [tauto|]. rewrite IH by tauto. reflexivity.
Qed.

Lemma remove_one_present (k : Z) (b : list Z) :
  In k b -> Permutation b (k :: remove_one k b).
Proof.
  induction b as [|x b IH]; simpl; [intros []|]. intros H.
  destruct (Z.eqb_spec x k) as [->|Hne]; [reflexivity|].
  destruct H as [H|H]; [contradiction|].
  rewrite (IH H) at 1. apply perm_swap.
Qed.

(** The tree of a run is weakly ordered and holds the bag of the run. *)
Lemma run_bag_from (ops : list op) (t : tree Z) (b : list Z) :
  weakly_ordered t -> Permutation (keys t) b ->
  weakly_ordered (fold_left apply_op ops t)
  /\ Permutation (keys (fold_left apply_op ops t)) (fold_left bag_op ops b).
Proof.
  revert t b. induction ops as [|[k|k] ops IH]; intros t b Ht Hb; simpl.
  - auto.
  - apply IH; [apply weakly_ordered_insert, Ht|].
    rewrite keys_insert_perm, Hb. reflexivity.
  - apply IH; [apply weakly_ordered_delete, Ht|].
    destruct (in_dec Z.eq_dec k (keys t)) as [Hin|Hout].
    + apply (Permutation_cons_inv (a := k)).
      rewrite <- (keys_delete_perm t k Ht Hin), Hb.
      apply remove_one_present. rewrite <- Hb. exact Hin.
    + rewrite bst_delete_absent by exact Hout.
      rewrite remove_one_absent; [exact Hb|]. rewrite <- Hb. exact Hout.
Qed.

Lemma sorted_app_middle (xs ys : list Z) (v : Z) :
  StronglySorted Z.le xs -> StronglySorted Z.le ys ->
  (forall k, In k xs -> k <= v) -> (forall k, In k ys -> v <= k) ->
  StronglySorted Z.le (xs ++ v :: ys).
Proof.
  intros Sx Sy Hx Hy. induction xs as [|x xs IH]; simpl.
  - constructor; [exact Sy|]. apply List.Forall_forall. exact Hy.
  - apply StronglySorted_inv in Sx as [Sxs Hle].
    constructor.
    + apply IH; [exact Sxs|]. intros k Hk. apply Hx. right. exact Hk.
    + apply List.Forall_forall. intros y Hin.
      apply in_app_or in Hin as [Hin|[<-|Hin]].
      * rewrite List.Forall_forall in Hle. apply Hle, Hin.
      * apply Hx. left; reflexivity.
      * assert (x <= v) by (apply Hx; left; reflexivity).
        apply Hy in Hin. lia.
Qed.

Lemma weakly_ordered_sorted (t : tree Z) :
  weakly_ordered t -> StronglySorted Z.le (keys t).
Proof.
  induction t as [|v l IHl r IHr]; simpl; [constructor|].
  intros (Hl & Hr & Ol & Or). rewrite all_keys_In in Hl, Hr.
  apply sorted_app_middle; auto.
Qed.

(** X1: an insertion stores the key once more and keeps every key that was
    there, duplicates included. *)
Theorem X1_insert_keeps_keys (t : tree Z) (k : Z) :
  Permutation (keys (bst_insert t k)) (k :: keys t)
  /\ nodes (bst_insert t k) = nodes t + 1.
Proof.
  split; [apply keys_insert_perm|].
  induction t as [|v l IHl r IHr]; simpl; [reflexivity|].
  destruct (k <? v); simpl; lia.
Qed.

(** X2: deleting a key that is not in the tree returns the tree as it is,
    whatever its shape. *)
Theorem X2_delete_absent_noop (t : tree Z) (k : Z) :
  ~ In k (keys t) -> bst_delete t k = t.
Proof. apply bst_delete_absent. Qed.

Lemma X2_delete_absent_noop_witness :
  bst_delete (TreeNode 5 (TreeNode 3 Empty Empty) (TreeNode 8 Empty Empty)) 4
  = TreeNode 5 (TreeNode 3 Empty Empty) (TreeNode 8 Empty Empty).
Proof.
  apply (X2_delete_absent_noop
           (TreeNode 5 (TreeNode 3 Empty Empty) (TreeNode 8 Empty Empty)) 4).
  simpl. lia.
Defined.

(** X3: on a tree with left keys smaller or equal and right keys greater or
    equal, deleting a key that is present removes exactly one occurrence of
    it and nothing else. *)
Theorem X3_delete_removes_one (t : tree Z) (k : Z) :
  weakly_ordered t -> In k (keys t) ->
  Permutation (keys t) (k :: keys (bst_delete t k))
  /\ nodes (bst_delete t k) = nodes t - 1.
Proof.
  intros Ht Hin. split; [apply keys_delete_perm; assumption|].
  revert k Ht Hin. induction t as [|v l IHl r IHr]; intros k; [intros _ []|].
  intros (Hl & Hr & Ol & Or) Hin.
  rewrite all_keys_In in Hl, Hr.
  simpl in Hin. rewrite in_app_iff in Hin. simpl in Hin.
  destruct (Z.lt_trichotomy k v) as [Hlt|[->|Hgt]].
  - assert (Hk : In k (keys l)).
    { destruct Hin as [H|[H|H]]; [assumption|lia|apply Hr in H; lia]. }
    rewrite bst_delete_lt by assumption. simpl. rewrite (IHl k Ol Hk). lia.
  - destruct (bst_delete_cases v l r) as [[-> ->]|[[-> ->]|(m & Hm & ->)]];
      simpl; try lia.
    rewrite (IHl m Ol (bst_find_max_In _ _ Hm)). lia.
  - assert (Hk : In k (keys r)).
    { destruct Hin as [H|[H|H]]; [apply Hl in H; lia|lia|assumption]. }
    rewrite bst_delete_gt by assumption. simpl. rewrite (IHr k Or Hk). lia.
Qed.

Lemma X3_delete_removes_one_witness :
  Permutation (keys (TreeNode 3 (TreeNode 3 Empty Empty) (TreeNode 8 Empty Empty)))
    (3 :: keys (bst_delete (TreeNode 3 (TreeNode 3 Empty Empty) (TreeNode 8 Empty Empty)) 3))
  /\ nodes (bst_delete (TreeNode 3 (TreeNode 3 Empty Empty) (TreeNode 8 Empty Empty)) 3)
     = nodes (TreeNode 3 (TreeNode 3 Empty Empty) (TreeNode 8 Empty Empty)) - 1.
Proof.
  apply (X3_delete_removes_one
           (TreeNode 3 (TreeNode 3 Empty Empty) (TreeNode 8 Empty Empty)) 3).
  - simpl. repeat split; lia.
  - simpl. left. reflexivity.
Defined.

(** X4: after every run of insertions and deletions from the empty tree,
    left keys are smaller or equal and right keys greater or equal at every
    node, and the keys read left to right are in ascending order. *)
Theorem X4_run_sorted (ops : list op) :
  weakly_ordered (run ops) /\ StronglySorted Z.le (keys (run ops)).
Proof.
  destruct (run_bag_from ops Empty [] I (Permutation_refl _)) as [H _].
  split; [exact H|]. apply weakly_ordered_sorted, H.
Qed.

(** X5: after every run, bst_find_max returns [None] exactly on the empty
    tree and otherwise a key of the tree that no key exceeds. *)
Theorem X5_find_max_is_maximum (ops : list op) :
  match bst_find_max (run ops) with
  | None => run ops = Empty
  | Some m => In m (keys (run ops)) /\ forall k, In k (keys (run ops)) -> k <= m
  end.
Proof.
  destruct (run_bag_from ops Empty [] I (Permutation_refl _)) as [H _].
  fold (run ops) in H.
  destruct (bst_find_max (run ops)) as [m|] eqn:E.
  - split; [apply bst_find_max_In, E|].
    apply all_keys_In, bst_find_max_upper; assumption.
  - destruct (run ops) as [|v l r]; [reflexivity|].
    destruct (bst_find_max_node v l r) as [m Hm]. congruence.
Qed.

(** X6: after every run, duplicates included, the keys of the tree are the
    bag obtained by adding one occurrence per insertion and removing one per
    deletion of a key that is there, and bst_search finds exactly the keys
    of that bag. *)
Theorem X6_search_iff_in_bag (ops : list op) (k : Z) :
  Permutation (keys (run ops)) (bag ops)
  /\ (bst_search (run ops) k = true <-> In k (bag ops)).
Proof.
  destruct (run_bag_from ops Empty [] I (Permutation_refl _)) as [H P].
  fold (run ops) in H, P. fold (bag ops) in P.
  split; [exact P|]. rewrite (bst_search_In _ _ H).
  split; intros Hin; apply list_elem_of_In; apply list_elem_of_In in Hin.
  - rewrite <- P. exact Hin.
  - rewrite P. exact Hin.
Qed.

Lemma bst_height_nonneg (t : tree Z) : 0 <= bst_height t.
Proof. induction t; simpl; lia. Qed.

(** X7: the height is at most the number of nodes; an insertion never
    lowers it and raises it by at most one; a deletion never raises it. *)
Theorem X7_height_bounds (t : tree Z) (k : Z) :
  0 <= bst_height t <= nodes t
  /\ bst_height t <= bst_height (bst_insert t k) <= bst_height t + 1
  /\ bst_height (bst_delete t k) <= bst_height t.
Proof.
  split; [|split].
  - induction t as [|v l IHl r IHr]; simpl; lia.
  - induction t as [|v l IHl r IHr]; simpl; [lia|].
    destruct (k <? v); simpl; lia.
  - revert k. induction t as [|v l IHl r IHr]; intros k; [simpl; lia|].
    pose proof (bst_height_nonneg l). pose proof (bst_height_nonneg r).
    destruct (Z.lt_trichotomy k v) as [Hlt|[->|Hgt]].
    + rewrite bst_delete_lt by assumption. specialize (IHl k). simpl. lia.
    + destruct (bst_delete_cases v l r) as [[-> ->]|[[-> ->]|(m & Hm & ->)]];
        simpl; try lia.
      specialize (IHl m). lia.
    + rewrite bst_delete_gt by assumption. specialize (IHr k). simpl. lia.
Qed.

Lemma strictly_ordered_ordered (t : tree Z) : strictly_ordered t -> ordered t.
Proof.
  induction t as [|v l IHl r IHr]; simpl; [tauto|].
  intros (Hl & Hr & Ol & Or). repeat split; auto.
  eapply all_keys_impl; [|exact Hr]. simpl; intros; lia.
Qed.

(** X8: when the keys inserted into the empty tree are distinct, the tree
    keeps left keys strictly smaller and right keys greater or equal
    through any deletions that follow. *)
Theorem X8_distinct_keys_ordered (ks ds : list Z) :
  NoDup ks ->
  ordered (fold_left bst_delete ds (fold_left bst_insert ks Empty)).
Proof.
  intros Hnd.
  destruct (inserts_strictly_ordered ks Empty Hnd I) as [S _]; [simpl; tauto|].
  destruct (deletes_strictly_ordered ds _ S) as [S' _].
  apply strictly_ordered_ordered, S'.
Qed.

Lemma X8_distinct_keys_ordered_witness :
  ordered (fold_left bst_delete [5; 1] (fold_left bst_insert [5; 3; 8; 4] Empty)).
Proof.
  apply (X8_distinct_keys_ordered [5; 3; 8; 4] [5; 1]).
  repeat constructor; rewrite ?list_elem_of_In; simpl; lia.
Defined.

End NumBSTBagFacts.

(** ** escape_text *)

Section MarkupFacts.
Import Markup.

Lemma append_assoc (a b c : string) : (a +:+ b) +:+ c = a +:+ (b +:+ c).
Proof.
  induction a as [|x a IH]; [reflexivity|].
  rewrite !append_String, IH. reflexivity.
Qed.

Lemma replace_app (old : ascii) (new a b : string) :
  replace old new (a +:+ b) = replace old new a +:+ replace old new b.
Proof.
  induction a as [|c a IH]; [reflexivity|].
  rewrite append_String. cbn [replace]. rewrite IH.
  destruct (Ascii.eqb c old).
  - symmetry. apply append_assoc.
  - rewrite append_String. reflexivity.
Qed.

Lemma escape_text_app (a b : string) :
  escape_text (Some (a +:+ b)) = escape_text (Some a) +:+ escape_text (Some b).
Proof. unfold escape_text. rewrite !replace_app. reflexivity. Qed.

Lemma escape_text_one (c : ascii) :
  escape_text (Some (String c EmptyString)) = escape_char c.
Proof.
  destruct c as [[] [] [] [] [] [] [] []]; reflexivity.
Qed.

Lemma markup_free_app (a b : string) :
  markup_free (a +:+ b) = markup_free a && markup_free b.
Proof.
  induction a as [|c a IH]; [reflexivity|].
  rewrite append_String. cbn [markup_free]. rewrite IH.
  rewrite !andb_assoc. reflexivity.
Qed.

Lemma markup_free_escape_char (c : ascii) : markup_free (escape_char c) = true.
Proof.
  destruct c as [[] [] [] [] [] [] [] []]; reflexivity.
Qed.

Lemma escape_text_each (s : string) : escape_text (Some s) = escape_each s.
Proof.
  induction s as [|c s IH]; [reflexivity|].
  change (String c s) with (String c EmptyString +:+ s).
  rewrite escape_text_app, escape_text_one, IH. reflexivity.
Qed.

(** X9: the five chained replacements of escape_text escape every character
    once and on its own (an ampersand produced by an earlier replacement is
    not escaped again), and the result holds no angle bracket and no quote;
    [None] gives the empty string. *)
Theorem X9_escape_text_safe (s : string) :
  escape_text None = EmptyString
  /\ escape_text (Some s) = escape_each s
  /\ markup_free (escape_text (Some s)) = true.
Proof.
  split; [reflexivity|]. split; [apply escape_text_each|].
  rewrite escape_text_each.
  induction s as [|c s IH]; [reflexivity|].
  cbn [escape_each]. rewrite markup_free_app, markup_free_escape_char, IH.
  reflexivity.
Qed.

End MarkupFacts.

(** ** Routes of the visualizer *)

Section VisualizerFacts.
Import NumBST Routes Visualizer GenericTreeShape.

Lemma last_char_rstrip (t : string) :
  match last_char (rstrip t) with
  | Some c => is_space c = false
  | None => rstrip t = ""%string
  end.
Proof.
  induction t as [|a t IH]; [reflexivity|].
  rewrite rstrip_cons. destruct (rstrip t) as [|b u].
  - destruct (is_space a) eqn:Ha; [reflexivity|exact Ha].
  - change (last_char (String a (String b u))) with (last_char (String b u)).
    destruct (last_char (String b u)); [exact IH|discriminate IH].
Qed.

Lemma first_char_rstrip (c : ascii) (t : string) :
  is_space c = false -> first_char (rstrip (String c t)) = Some c.
Proof.
  intros Hc. rewrite rstrip_cons. destruct (rstrip t); [rewrite Hc|]; reflexivity.
Qed.

(** What str.strip() returns is empty or starts and ends with a character
    that is not white space. *)
Lemma strip_stored (s : string) :
  strip s <> ""%string -> stored_ok (strip s) = true.
Proof.
  unfold strip, stored_ok. intros Hne.
  destruct (lstrip_head s) as [E|(c & t & E & Hc)]; rewrite E in *.
  { contradiction Hne. reflexivity. }
  rewrite (first_char_rstrip c t Hc).
  pose proof (last_char_rstrip (String c t)) as Hl.
  destruct (last_char (rstrip (String c t))) as [b|]; [|contradiction].
  rewrite Hc, Hl. reflexivity.
Qed.

Lemma py_strip_stored (x : json) (val : string) :
  py_strip x = Ok val -> val <> ""%string -> stored_ok val = true.
Proof.
  destruct x; try discriminate. simpl. intros [= <-]. apply strip_stored.
Qed.

Lemma append_stored (value : option json) (l : list string) (val : string) :
  py_strip (get_value_or_empty value) = Ok val ->
  String.eqb val "" = false ->
  Forall (fun v => stored_ok v = true) l ->
  Forall (fun v => stored_ok v = true) (l ++ [val]).
Proof.
  intros Hs Hne Hl. apply Forall_app. split; [exact Hl|].
  constructor; [|constructor].
  apply (py_strip_stored _ _ Hs). intros ->. discriminate.
Qed.

Lemma handle_list_stored (req : list_request) (st st' : list string * list string) :
  Forall (fun v => stored_ok v = true) st.1 ->
  Forall (fun v => stored_ok v = true) st.2 ->
  handle_list req st = Ok st' ->
  Forall (fun v => stored_ok v = true) st'.1
  /\ Forall (fun v => stored_ok v = true) st'.2.
Proof.
  destruct st as [q s]. simpl. intros Hq Hs.
  destruct req as [value| |value|]; cbn.
  - unfold queue_enqueue.
    destruct (py_strip (get_value_or_empty value)) as [val|e] eqn:E; cbn;
      [|discriminate].
    destruct (String.eqb val "") eqn:Hb; cbn; intros [= <-]; simpl.
    + auto.
    + split; [eapply append_stored; eassumption|exact Hs].
  - intros [= <-]. simpl. split; [|exact Hs].
    destruct q; [constructor|]. apply Forall_cons in Hq as [_ Hq]. exact Hq.
  - unfold stack_push.
    destruct (py_strip (get_value_or_empty value)) as [val|e] eqn:E; cbn;
      [|discriminate].
    destruct (String.eqb val "") eqn:Hb; cbn; intros [= <-]; simpl.
    + auto.
    + split; [exact Hq|eapply append_stored; eassumption].
  - intros [= <-]. simpl. split; [exact Hq|].
    clear Hq. induction s as [|x s IH]; [constructor|].
    apply Forall_cons in Hs as [Hx Hs]. simpl.
    destruct s; [constructor|]. constructor; [exact Hx|apply IH, Hs].
Qed.

Lemma serve_lists_stored (reqs : list list_request) (st st' : list string * list string) :
  Forall (fun v => stored_ok v = true) st.1 ->
  Forall (fun v => stored_ok v = true) st.2 ->
  serve_lists reqs st = Ok st' ->
  Forall (fun v => stored_ok v = true) st'.1
  /\ Forall (fun v => stored_ok v = true) st'.2.
Proof.
  revert st. induction reqs as [|req reqs IH]; intros st Hq Hs; cbn.
  - intros [= <-]. auto.
  - destruct (handle_list req st) as [st1|e] eqn:E; cbn; [|discriminate].
    destruct (handle_list_stored req st st1 Hq Hs E) as [Hq1 Hs1].
    apply IH; assumption.
Qed.

(** X10: whatever requests with ASCII values the list-based queue and stack
    routes serve without raising, every value held by the queue and by the
    stack has a first and a last character, neither of which is white
    space. *)
Theorem X10_lists_hold_stripped_values
  (reqs : list list_request) (queue stack : list string) :
  forallb ascii_list_request reqs = true ->
  serve_lists reqs ([], []) = Ok (queue, stack) ->
  Forall (fun v => stored_ok v = true) queue
  /\ Forall (fun v => stored_ok v = true) stack.
Proof.
  intros _ H.
  apply (serve_lists_stored reqs ([], []) (queue, stack)); auto; constructor.
Qed.

Lemma X10_lists_hold_stripped_values_witness :
  Forall (fun v => stored_ok v = true) ["b c"%string]
  /\ Forall (fun v => stored_ok v = true) ["d"%string].
Proof.
  apply (X10_lists_hold_stripped_values
           [QueueEnqueue (Some (JStr " a ")); QueueEnqueue (Some (JStr "   "));
            QueueEnqueue (Some (JStr "  b c ")); QueueDequeue;
            StackPush (Some (JStr " c")); StackPush None; StackPop;
            StackPush (Some (JStr "d "))]).
  - reflexivity.
  - reflexivity.
Defined.

Lemma handle_bt_height (req : bt_request) (t t' : tree string) :
  (GenericTree.height t <= 2)%nat -> handle_bt req t = Ok t' ->
  (GenericTree.height t' <= 2)%nat.
Proof.
  intros Hh. destruct req as [value|value|]; cbn.
  - unfold bt_add_left.
    destruct (py_strip (get_value_or_empty value)) as [val|e]; cbn;
      [|discriminate].
    destruct (String.eqb val ""); cbn; intros [= <-]; [exact Hh|].
    destruct t as [|v [|lv ll lr] r]; simpl in *; lia.
  - unfold bt_add_right.
    destruct (py_strip (get_value_or_empty value)) as [val|e]; cbn;
      [|discriminate].
    destruct (String.eqb val ""); cbn; intros [= <-]; [exact Hh|].
    destruct t as [|v l [|rv rl rr]]; simpl in *; lia.
  - intros [= <-]. simpl. lia.
Qed.

Lemma height_two_size (A : Type) (t : tree A) :
  (GenericTree.height t <= 2)%nat -> (GenericTree.size t <= 3)%nat.
Proof.
  destruct t as [|v [|lv [|] [|]] [|rv [|] [|]]]; simpl; lia.
Qed.

Lemma serve_bt_height (reqs : list bt_request) (t t' : tree string) :
  (GenericTree.height t <= 2)%nat -> serve_bt reqs t = Ok t' ->
  (GenericTree.height t' <= 2)%nat.
Proof.
  revert t. induction reqs as [|req reqs IH]; intros t Ht; cbn.
  - intros [= <-]. exact Ht.
  - destruct (handle_bt req t) as [t1|e] eqn:E; cbn; [|discriminate].
    apply IH. eapply handle_bt_height; eassumption.
Qed.

(** An add request whose link at the root holds a node leaves the tree as
    it is. *)
Lemma handle_bt_taken (s : GenericTree.slot) (value : option json)
    (t t' : tree string) :
  slot_of t s <> Empty ->
  handle_bt (match s with
             | GenericTree.SlotLeft => BtAddLeft value
             | GenericTree.SlotRight => BtAddRight value
             end) t = Ok t' ->
  t' = t.
Proof.
  intros Hs. destruct s; cbn; unfold bt_add_left, bt_add_right;
    (destruct (py_strip (get_value_or_empty value)) as [val|e]; cbn;
       [|discriminate]);
    (destruct (String.eqb val ""); cbn; intros [= <-]; [reflexivity|]).
  - destruct t as [|v [|lv ll lr] r]; simpl in Hs; congruence.
  - destruct t as [|v l [|rv rl rr]]; simpl in Hs; congruence.
Qed.

(** X11: whatever requests with ASCII values the manual binary tree serves
    without raising, the tree never goes beyond a root with two children,
    and on the tree reached an add request whose link at the root already
    holds a node changes nothing, whatever its value. *)
Theorem X11_manual_tree_three_nodes (reqs : list bt_request) (bt_root : tree string) :
  forallb ascii_bt_request reqs = true ->
  serve_bt reqs Empty = Ok bt_root ->
  (GenericTree.height bt_root <= 2)%nat /\ (GenericTree.size bt_root <= 3)%nat
  /\ (forall value t',
        slot_of bt_root GenericTree.SlotLeft <> Empty ->
        handle_bt (BtAddLeft value) bt_root = Ok t' -> t' = bt_root)
  /\ (forall value t',
        slot_of bt_root GenericTree.SlotRight <> Empty ->
        handle_bt (BtAddRight value) bt_root = Ok t' -> t' = bt_root).
Proof.
  intros _ H.
  assert (Hh : (GenericTree.height bt_root <= 2)%nat).
  { apply (serve_bt_height reqs Empty bt_root); [simpl; lia|exact H]. }
  split; [exact Hh|]. split; [apply height_two_size, Hh|]. split.
  - intros value t'. apply (handle_bt_taken GenericTree.SlotLeft).
  - intros value t'. apply (handle_bt_taken GenericTree.SlotRight).
Qed.

Lemma X11_manual_tree_three_nodes_witness :
  let bt_root := TreeNode "r"%string (TreeNode "a"%string Empty Empty)
                   (TreeNode "c"%string Empty Empty) in
  (GenericTree.height bt_root <= 2)%nat /\ (GenericTree.size bt_root <= 3)%nat
  /\ (forall value t',
        slot_of bt_root GenericTree.SlotLeft <> Empty ->
        handle_bt (BtAddLeft value) bt_root = Ok t' -> t' = bt_root)
  /\ (forall value t',
        slot_of bt_root GenericTree.SlotRight <> Empty ->
        handle_bt (BtAddRight value) bt_root = Ok t' -> t' = bt_root).
Proof.
  apply (X11_manual_tree_three_nodes
           [BtAddLeft (Some (JStr "r")); BtAddLeft (Some (JStr "a"));
            BtAddLeft (Some (JStr "b")); BtAddRight (Some (JStr "c"));
            BtAddRight (Some (JStr "d"))]).
  - reflexivity.
  - reflexivity.
Defined.

Lemma bst_insert_route_text (s : string) (t : tree Z) :
  exists r,
    bst_insert_route (Some (JStr s)) t
    = Ok (r, match py_int (JStr (strip s)) with
             | Ok num => bst_insert t num
             | Raise _ => t
             end).
Proof.
  unfold bst_insert_route. cbn [get_value_or_empty py_strip mbind result_bind].
  destruct (String.eqb_spec (strip s) "") as [E|_].
  - rewrite E. cbn. eauto.
  - destruct (py_int (JStr (strip s))); eauto.
Qed.

Lemma handle_bst_accepted (req : bst_request) (t t' : tree Z) (a : bst_answer) :
  handle_bst req t = Ok (a, t') ->
  t' = fold_left apply_op (accepted req) t.
Proof.
  destruct req as [value|value|value| |]; cbn [handle_bst accepted].
  - destruct value as [x|].
    + destruct x as [|b|z|m e|n| |s|]; try discriminate.
      destruct (bst_insert_route_text s t) as [r ->].
      cbn [mbind result_bind py_int]. intros [= _ <-].
      destruct (int_of_str (strip s)); reflexivity.
    + cbn. intros [= _ <-]. reflexivity.
  - unfold bst_search_route.
    destruct (py_int (get_value value)); cbn; intros [= _ <-]; reflexivity.
  - unfold bst_delete_route.
    destruct (py_int (get_value value)); cbn; intros [= _ <-]; reflexivity.
  - cbn. intros [= _ <-]. reflexivity.
  - cbn. intros [= _ <-]. reflexivity.
Qed.

Lemma serve_bst_accepted (reqs : list bst_request) (t t' : tree Z)
    (answers : list bst_answer) :
  serve_bst reqs t = Ok (answers, t') ->
  t' = fold_left apply_op (flat_map accepted reqs) t.
Proof.
  revert t answers. induction reqs as [|req reqs IH]; intros t answers;
    cbn [serve_bst flat_map].
  - intros [= _ <-]. reflexivity.
  - destruct (handle_bst req t) as [[a t1]|e] eqn:Ha; cbn [mbind result_bind];
      [|discriminate].
    destruct (serve_bst reqs t1) as [[answers1 t2]|e] eqn:Hs;
      cbn [mbind result_bind]; [|discriminate].
    intros [= _ <-]. rewrite fold_left_app.
    rewrite <- (handle_bst_accepted req t t1 a Ha). apply (IH t1 answers1 Hs).
Qed.

(** X12: whenever a sequence of requests with ASCII values to the /bst
    routes is served without raising, the tree left is the one obtained by
    running, in order, the insertions whose value, stripped, is read by
    int() and the deletions whose value is read by int(), the other requests
    leaving no trace; this tree has left keys smaller or equal and right
    keys greater or equal. *)
Theorem X12_bst_routes_compose
    (reqs : list bst_request) (answers : list bst_answer) (bst_root : tree Z) :
  forallb ascii_bst_request reqs = true ->
  serve_bst reqs Empty = Ok (answers, bst_root) ->
  bst_root = run (flat_map accepted reqs)
  /\ weakly_ordered bst_root
  /\ List.length answers = List.length reqs.
Proof.
  intros _ H. split; [apply (serve_bst_accepted reqs Empty bst_root answers H)|].
  split.
  - rewrite (serve_bst_accepted reqs Empty bst_root answers H).
    apply run_weakly_ordered.
  - clear -H. revert answers bst_root H. generalize (@Empty Z) as t.
    induction reqs as [|req reqs IH]; intros t answers bst_root;
      cbn [serve_bst].
    + intros [= <- _]. reflexivity.
    + destruct (handle_bst req t) as [[a t1]|e]; cbn [mbind result_bind];
        [|discriminate].
      destruct (serve_bst reqs t1) as [[answers1 t2]|e] eqn:Hs;
        cbn [mbind result_bind]; [|discriminate].
      intros [= <- _]. simpl. rewrite (IH t1 answers1 t2 Hs). reflexivity.
Qed.

End VisualizerFacts.

Lemma X12_bst_routes_compose_witness :
  let reqs :=
    [Visualizer.PostInsert (Some (Routes.JStr " 5 "));
     Visualizer.PostInsert (Some (Routes.JStr "x"));
     Visualizer.PostInsert
       (Some (Routes.JStr (String (ascii_of_nat 31) "7")));
     Visualizer.PostDelete (Some Routes.JNull); Visualizer.GetMax;
     Visualizer.PostInsert None;
     Visualizer.PostDelete
       (Some (Routes.JStr (String (ascii_of_nat 31) "7")));
     Visualizer.PostDelete (Some (Routes.JFloat 11 (-1)));
     Visualizer.PostDelete (Some (Routes.JInt 5));
     Visualizer.PostSearch (Some (Routes.JStr "5"))] in
  TreeNode 7 Empty Empty
  = NumBST.run (flat_map Visualizer.accepted reqs)
  /\ NumBST.weakly_ordered (TreeNode 7 Empty Empty)
  /\ List.length
       [Visualizer.Plain (Routes.Svg (TreeNode 5 Empty Empty));
        Visualizer.Plain (Routes.Failure (Some "numeric only"%string));
        Visualizer.Plain (Routes.Svg (TreeNode 5 Empty (TreeNode 7 Empty Empty)));
        Visualizer.Plain (Routes.Failure None);
        Visualizer.MaxIs (Some 7);
        Visualizer.Plain (Routes.Failure None);
        Visualizer.Plain (Routes.Failure None);
        Visualizer.Plain (Routes.Svg (TreeNode 7 Empty Empty));
        Visualizer.Plain (Routes.Svg (TreeNode 7 Empty Empty));
        Visualizer.Plain (Routes.Found false)]
     = List.length reqs.
Proof.
  apply (X12_bst_routes_compose
           [Visualizer.PostInsert (Some (Routes.JStr " 5 "));
            Visualizer.PostInsert (Some (Routes.JStr "x"));
            Visualizer.PostInsert
              (Some (Routes.JStr (String (ascii_of_nat 31) "7")));
            Visualizer.PostDelete (Some Routes.JNull); Visualizer.GetMax;
            Visualizer.PostInsert None;
            Visualizer.PostDelete
              (Some (Routes.JStr (String (ascii_of_nat 31) "7")));
            Visualizer.PostDelete (Some (Routes.JFloat 11 (-1)));
            Visualizer.PostDelete (Some (Routes.JInt 5));
            Visualizer.PostSearch (Some (Routes.JStr "5"))]).
  - reflexivity.
  - reflexivity.
Defined.

(** ** Level-order insertion keeps the tree *)

Section GenericTreeShapeFacts.
Import GenericTree GenericTreeShape.
Context {A : Type}.
Implicit Types (t root : tree A) (p : path) (f : list (path * tree A)).

Lemma subtree_snoc t p (s : slot) :
  subtree t (p ++ [s]) = slot_of (subtree t p) s.
Proof.
  revert t. induction p as [|a p IH]; intros t.
  - destruct t as [|v l r]; [reflexivity|]. destruct s; reflexivity.
  - destruct t as [|v l r]; [reflexivity|]. destruct a; apply IH.
Qed.

Lemma child_nodes_located root (x : path * tree A) :
  located root x -> Forall (located root) (child_nodes x).
Proof.
  destruct x as [p [|v l r]]; unfold located; simpl; intros H; [constructor|].
  apply Forall_app. split.
  - destruct l as [|lv ll lr]; constructor; [|constructor].
    unfold located. simpl. rewrite subtree_snoc, H. reflexivity.
  - destruct r as [|rv rl rr]; constructor; [|constructor].
    unfold located. simpl. rewrite subtree_snoc, H. reflexivity.
Qed.

Lemma next_level_located root f :
  Forall (located root) f -> Forall (located root) (next_level f).
Proof.
  induction 1 as [|x f Hx _ IH]; simpl; [constructor|].
  apply Forall_app. split; [apply child_nodes_located, Hx|exact IH].
Qed.

Lemma levels_located root (h : nat) f :
  Forall (located root) f -> Forall (located root) (levels h f).
Proof.
  revert f. induction h as [|h IH]; intros f Hf; simpl; [constructor|].
  apply Forall_app. split; [exact Hf|]. apply IH, next_level_located, Hf.
Qed.

Lemma first_free_located root f p (s : slot) :
  Forall (located root) f -> first_free f = Some (p, s) ->
  exists v l r, subtree root p = TreeNode v l r
                /\ slot_of (TreeNode v l r) s = Empty.
Proof.
  induction 1 as [|x f Hx _ IH]; simpl; [discriminate|].
  destruct (free_slot x) as [ps|] eqn:E; [|exact IH].
  intros [= ->]. unfold located in Hx.
  destruct x as [q [|v [|lv ll lr] [|rv rl rr]]]; simpl in *;
    try discriminate; injection E as <- <-; eauto.
Qed.

Lemma attach_values t p (s : slot) (new : tree A) v l r :
  subtree t p = TreeNode v l r -> slot_of (TreeNode v l r) s = Empty ->
  Permutation (values (attach t p s new)) (values new ++ values t).
Proof.
  revert t. induction p as [|a p IH]; intros t Hsub Hfree.
  - simpl in Hsub. subst t. destruct s; simpl in Hfree; subst; simpl.
    + apply (Permutation_middle (values new) (values r) v).
    + rewrite app_nil_r.
      rewrite (Permutation_app_comm (values l) (values new)).
      apply (Permutation_middle (values new) (values l) v).
  - destruct t as [|tv tl tr]; [discriminate|].
    destruct a; simpl in Hsub; simpl.
    + rewrite (IH tl Hsub Hfree), <- app_assoc.
      apply (Permutation_middle (values new) (values tl ++ values tr) tv).
    + rewrite (IH tr Hsub Hfree).
      rewrite <- (Permutation_middle (values new) (values tl ++ values tr) tv).
      apply perm_skip. rewrite !app_assoc.
      apply Permutation_app_tail, Permutation_app_comm.
Qed.

Lemma size_values t : size t = List.length (values t).
Proof.
  induction t as [|v l IHl r IHr]; simpl; [reflexivity|].
  rewrite length_app, IHl, IHr. reflexivity.
Qed.

(** X13: with fuel above the size of the tree, the level-order insertion
    returns a tree (it neither raises nor leaves its loop without attaching),
    which holds the new value once more and every value that was there:
    exactly one node is added. *)
Theorem X13_tree_insert_adds_one (root : tree A) (val : A) (fuel : nat) :
  (size root < fuel)%nat ->
  exists root',
    tree_insert fuel root val = Some (Ok root')
    /\ Permutation (values root') (val :: values root)
    /\ size root' = S (size root).
Proof.
  intros Hfuel.
  assert (G : exists root', tree_insert fuel root val = Some (Ok root')
                            /\ Permutation (values root') (val :: values root)).
  { destruct root as [|v l r]; [exists (new_node val); split; reflexivity|].
    assert (Hnode : Forall is_node [([] : path, TreeNode v l r)])
      by (repeat constructor).
    destruct (first_free_levels_Some (height (TreeNode v l r))
                [([], TreeNode v l r)]) as [[p s] Hps];
      [discriminate|assumption|simpl; lia|].
    pose proof (insert_loop_levels fuel [] [([], TreeNode v l r)]
                  (height (TreeNode v l r))) as Hloop.
    cbn [app next_level flat_map] in Hloop.
    assert (E : insert_loop fuel [([], TreeNode v l r)] = Some (Ok (Some (p, s)))).
    { rewrite <- Hps. apply Hloop;
        [constructor|assumption|simpl in *; lia|simpl; lia]. }
    destruct (first_free_located (TreeNode v l r) _ p s
                (levels_located (TreeNode v l r) (height (TreeNode v l r))
                   [([], TreeNode v l r)]
                   ltac:(repeat constructor)) Hps)
      as (v' & l' & r' & Hsub & Hfree).
    exists (attach (TreeNode v l r) p s (new_node val)). split.
    - unfold tree_insert. unfold path in E. rewrite E. reflexivity.
    - apply (attach_values (TreeNode v l r) p s (new_node val) v' l' r' Hsub Hfree). }
  destruct G as (root' & E & P). exists root'. split; [exact E|].
  split; [exact P|].
  rewrite !size_values. rewrite (Permutation_length P). reflexivity.
Qed.

Lemma subtree_Empty p : subtree (@Empty A) p = Empty.
Proof. destruct p; reflexivity. Qed.

Lemma label_Empty q : label (@Empty A) q = None.
Proof. unfold label. rewrite subtree_Empty. reflexivity. Qed.

Lemma label_leaf (x : A) q : q <> [] -> label (new_node x) q = None.
Proof.
  destruct q as [|a q]; [congruence|]. intros _. unfold label.
  destruct a; simpl; rewrite subtree_Empty; reflexivity.
Qed.

Lemma label_node (v : A) (l r : tree A) (a : slot) q :
  label (TreeNode v l r) (a :: q)
  = label (match a with SlotLeft => l | SlotRight => r end) q.
Proof. destruct a; reflexivity. Qed.

(** A leaf put in place of an empty link is one node added there. *)
Lemma added_at_root (x : A) : added_at Empty (new_node x) [] x.
Proof.
  split; [reflexivity|]. split; [reflexivity|].
  intros q Hq. rewrite label_leaf, label_Empty by exact Hq. reflexivity.
Qed.

(** A node added in a child is a node added in the tree, one link further
    down. *)
Lemma added_at_child (v : A) (l l' r r' : tree A) (a : slot) q (x : A) :
  match a with
  | SlotLeft => added_at l l' q x /\ r' = r
  | SlotRight => added_at r r' q x /\ l' = l
  end ->
  added_at (TreeNode v l r) (TreeNode v l' r') (a :: q) x.
Proof.
  intros H. unfold added_at.
  destruct a; destruct H as [(Hfree & Hnew & Hrest) ->]; cbn [subtree];
    (split; [exact Hfree|]); (split; [exact Hnew|]);
    intros [|b q'] Hq; try reflexivity; rewrite !label_node;
    destruct b; try reflexivity; apply Hrest; congruence.
Qed.

(** Where [attach] puts a leaf: below the node reached by [p], in the link
    [s], and nowhere else. *)
Lemma attach_added t p (s : slot) (x : A) v l r :
  subtree t p = TreeNode v l r -> slot_of (TreeNode v l r) s = Empty ->
  added_at t (attach t p s (new_node x)) (p ++ [s]) x.
Proof.
  revert t. induction p as [|a p IH]; intros t Hsub Hfree.
  - simpl in Hsub. subst t.
    destruct s; simpl in Hfree; subst; cbn [attach app];
      apply added_at_child; (split; [apply added_at_root|reflexivity]).
  - destruct t as [|tv tl tr]; [discriminate|].
    destruct a; simpl in Hsub; cbn [attach app]; apply added_at_child;
      (split; [apply IH; assumption|reflexivity]).
Qed.

(** C6: on a non-empty tree and with fuel above the size of the tree, the
    insertion returns the tree with one node added, a leaf holding the new
    value, at the first free child slot of the level-by-level, left-to-right
    listing of the nodes, first slot before second; every other place of the
    tree holds what it held.  On the empty tree the new node becomes the
    root.  Inserting A, B, C, D, E into the empty tree
    gives root A with children B and C, and B with children D and E; F and G
    then become the children of C. *)
Theorem C6_level_order_insert (v : A) (l r : tree A) (val : A) (fuel : nat) :
  (size (TreeNode v l r) < fuel)%nat ->
  (exists p s root',
      first_free (level_order (TreeNode v l r)) = Some (p, s)
      /\ tree_insert fuel (TreeNode v l r) val = Some (Ok root')
      /\ label (TreeNode v l r) p <> None
      /\ added_at (TreeNode v l r) root' (p ++ [s]) val)
  /\ tree_insert fuel Empty val = Some (Ok (new_node val))
  /\ insert_all example_values Empty
     = Some (Ok (TreeNode "A"%string
                   (TreeNode "B"%string (new_node "D"%string) (new_node "E"%string))
                   (new_node "C"%string)))
  /\ insert_all example_values_7 Empty
     = Some (Ok (TreeNode "A"%string
                   (TreeNode "B"%string (new_node "D"%string) (new_node "E"%string))
                   (TreeNode "C"%string (new_node "F"%string) (new_node "G"%string)))).
Proof.
  intros Hfuel. split; [|repeat split].
  assert (Hnode : Forall is_node [([] : path, TreeNode v l r)])
    by (repeat constructor).
  destruct (first_free_levels_Some (height (TreeNode v l r))
              [([], TreeNode v l r)]) as [[p s] Hps];
    [discriminate|assumption|simpl; lia|].
  pose proof (insert_loop_levels fuel [] [([], TreeNode v l r)]
                (height (TreeNode v l r))) as Hloop.
  cbn [app next_level flat_map] in Hloop.
  assert (E : insert_loop fuel [([], TreeNode v l r)] = Some (Ok (Some (p, s)))).
  { rewrite <- Hps. apply Hloop;
      [constructor|assumption|simpl in *; lia|simpl; lia]. }
  destruct (first_free_located (TreeNode v l r) _ p s
              (levels_located (TreeNode v l r) (height (TreeNode v l r))
                 [([], TreeNode v l r)]
                 ltac:(repeat constructor)) Hps)
    as (v' & l' & r' & Hsub & Hfree).
  exists p, s, (attach (TreeNode v l r) p s (new_node val)).
  split; [exact Hps|]. split.
  { unfold tree_insert. unfold path in E. rewrite E. reflexivity. }
  split; [unfold label; rewrite Hsub; discriminate|].
  apply (attach_added (TreeNode v l r) p s val v' l' r' Hsub Hfree).
Qed.

End GenericTreeShapeFacts.

Lemma C6_level_order_insert_witness :
  let root := TreeNode 1 (TreeNode 2 (GenericTree.new_node 4)
                            (GenericTree.new_node 5))
                (GenericTree.new_node 3) in
  (exists p s root',
      GenericTree.first_free (GenericTree.level_order root) = Some (p, s)
      /\ GenericTree.tree_insert 6 root 7 = Some (Ok root')
      /\ GenericTreeShape.label root p <> None
      /\ GenericTreeShape.added_at root root' (p ++ [s]) 7)
  /\ GenericTree.tree_insert 6 Empty 7 = Some (Ok (GenericTree.new_node 7))
  /\ GenericTree.insert_all GenericTree.example_values Empty
     = Some (Ok (TreeNode "A"%string
                   (TreeNode "B"%string (GenericTree.new_node "D"%string)
                      (GenericTree.new_node "E"%string))
                   (GenericTree.new_node "C"%string)))
  /\ GenericTree.insert_all GenericTreeShape.example_values_7 Empty
     = Some (Ok (TreeNode "A"%string
                   (TreeNode "B"%string (GenericTree.new_node "D"%string)
                      (GenericTree.new_node "E"%string))
                   (TreeNode "C"%string (GenericTree.new_node "F"%string)
                      (GenericTree.new_node "G"%string)))).
Proof.
  apply (C6_level_order_insert 1
           (TreeNode 2 (GenericTree.new_node 4) (GenericTree.new_node 5))
           (GenericTree.new_node 3) 7 6).
  simpl. lia.
Defined.

Lemma X13_tree_insert_adds_one_witness :
  let root := TreeNode 1 (GenericTree.new_node 2) Empty in
  exists root',
    GenericTree.tree_insert 3 root 7 = Some (Ok root')
    /\ Permutation (GenericTreeShape.values root') (7 :: GenericTreeShape.values root)
    /\ GenericTree.size root' = S (GenericTree.size root).
Proof.
  apply (X13_tree_insert_adds_one (TreeNode 1 (GenericTree.new_node 2) Empty) 7 3).
  simpl. lia.
Defined.

(** ** The feed *)

Section FeedFacts.
Import Text FeedBST Feed.

Lemma fold_left_push_map {X Y} (f : X -> Y) (xs : list X) (s : Stack.Stack Y) :
  fold_left (fun stack x => Stack.push stack (f x)) xs s
  = fold_left Stack.push (map f xs) s.
Proof.
  revert s. induction xs as [|x xs IH]; intros s; simpl; [reflexivity|apply IH].
Qed.

Lemma get_feed_stack_rev (rows : list row) :
  get_feed_stack rows = rev (map to_post rows).
Proof.
  unfold get_feed_stack. rewrite fold_left_push_map, to_list_push_all.
  apply app_nil_r.
Qed.

Lemma preorder_insert_perm (t : Node string) (d : string) :
  Permutation (preorder (insert t d)) (d :: preorder t).
Proof.
  induction t as [|x l IHl r IHr]; simpl; [reflexivity|].
  destruct (str_lt d x); simpl.
  - rewrite IHl. apply perm_swap.
  - rewrite IHr, <- (Permutation_middle (preorder l) (preorder r) d).
    apply perm_swap.
Qed.

Lemma preorder_inserts_perm (titles : list string) (t : Node string) :
  Permutation (preorder (fold_left insert titles t)) (titles ++ preorder t).
Proof.
  revert t. induction titles as [|d titles IH]; intros t; simpl; [reflexivity|].
  rewrite IH, preorder_insert_perm. symmetry. apply Permutation_middle.
Qed.

Lemma filter_perm {X} (f : X -> bool) (l l' : list X) :
  Permutation l l' -> Permutation (List.filter f l) (List.filter f l').
Proof.
  induction 1 as [|x l l' _ IH|x y l|l l' l'' _ IH1 _ IH2]; simpl.
  - reflexivity.
  - destruct (f x); [apply perm_skip|]; exact IH.
  - destruct (f x), (f y); try reflexivity. apply perm_swap.
  - etransitivity; eassumption.
Qed.

Lemma all_values_insert (P : string -> Prop) (t : Node string) (d : string) :
  all_values P t -> P d -> all_values P (insert t d).
Proof.
  induction t as [|x l IHl r IHr]; simpl; [tauto|].
  intros (Hx & Hl & Hr) Hd. destruct (str_lt d x); simpl; auto.
Qed.

Lemma str_ordered_insert (t : Node string) (d : string) :
  str_ordered t -> str_ordered (insert t d).
Proof.
  induction t as [|x l IHl r IHr]; simpl; [tauto|].
  intros (Hl & Hr & Ol & Or). destruct (str_lt d x) eqn:E; simpl.
  - split; [apply all_values_insert; assumption|]. auto.
  - split; [assumption|]. split; [apply all_values_insert; assumption|]. auto.
Qed.

(** X14: get_feed_stack returns the posts in the reverse of the order in
    which the query produced the rows, one post per row, with a NULL vote
    count replaced by 0. *)
Theorem X14_get_feed_stack_reverses (rows : list row) :
  get_feed_stack rows = rev (map to_post rows)
  /\ map id (get_feed_stack rows) = rev (map row_id rows)
  /\ List.length (get_feed_stack rows) = List.length rows.
Proof.
  rewrite get_feed_stack_rev. split; [reflexivity|]. split.
  - rewrite map_rev, map_map. reflexivity.
  - rewrite length_rev, length_map. reflexivity.
Qed.

Lemma height_insert (t : Node string) (d : string) :
  (height (insert t d) <= S (height t))%nat.
Proof.
  induction t as [|x l IHl r IHr]; simpl; [lia|].
  destruct (str_lt d x); simpl; lia.
Qed.

Lemma height_inserts (titles : list string) (t : Node string) :
  (height (fold_left insert titles t) <= List.length titles + height t)%nat.
Proof.
  revert t. induction titles as [|d titles IH]; intros t; simpl; [lia|].
  specialize (IH (insert t d)). pose proof (height_insert t d). lia.
Qed.

Lemma titles_of_feed (rows : list row) :
  Permutation (map title_or_empty (get_feed_stack rows)) (titles_of rows).
Proof.
  unfold titles_of. rewrite get_feed_stack_rev, <- map_rev, map_map.
  apply Permutation_map. symmetry. apply Permutation_rev.
Qed.

(** X15: for an ASCII keyword and rows whose titles are ASCII text or NULL,
    perform_bst_search raises nothing but RecursionError, and does not raise
    when the interpreter still allows more nested calls than there are
    rows.  When it returns, the result is the empty list for the empty
    keyword and otherwise holds exactly the titles that contain the keyword,
    case ignored, each as often as it occurs among the rows, a NULL title
    counting as the empty string. *)
Theorem X15_perform_bst_search_finds_all
    (limit : nat) (rows : list row) (keyword : string) :
  ascii_only keyword = true ->
  forallb ascii_only (titles_of rows) = true ->
  ((List.length rows < limit)%nat ->
   exists found, Feed.perform_bst_search limit rows keyword = Ok found)
  /\ match Feed.perform_bst_search limit rows keyword with
     | Ok found =>
         (keyword = ""%string -> found = [])
         /\ (keyword <> ""%string ->
             Permutation found (map PyStr (matching_titles rows keyword)))
     | Raise e => e = RecursionError /\ keyword <> ""%string
     end.
Proof.
  intros _ _.
  unfold Feed.perform_bst_search, FeedBST.perform_bst_search.
  set (tree := fold_left insert (map title_or_empty (get_feed_stack rows)) NoNode).
  assert (Hheight : (height (values PyStr tree) <= List.length rows)%nat).
  { rewrite height_values. unfold tree.
    pose proof (height_inserts (map title_or_empty (get_feed_stack rows)) NoNode) as H.
    assert (E : List.length (map title_or_empty (get_feed_stack rows))
                = List.length rows)
      by (rewrite List.length_map, get_feed_stack_rev, List.length_rev;
          apply List.length_map).
    rewrite E in H. simpl in H. lia. }
  destruct (String.eqb_spec keyword "") as [->|Hq].
  { split; [eauto|]. cbn. split; [reflexivity|congruence]. }
  assert (Hin : (height (values PyStr tree) < limit)%nat ->
                dfs_search limit (values PyStr tree) keyword
                = Ok (List.filter (matches keyword) (preorder (values PyStr tree))))
    by (apply dfs_search_within, Hq).
  split; [intros Hl; eexists; apply Hin; lia|].
  destruct (le_lt_dec limit (height (values PyStr tree))) as [Hdeep|Hok].
  - rewrite (dfs_search_too_deep _ _ _ Hq Hdeep). auto.
  - rewrite (Hin Hok). split; [congruence|]. intros _.
    rewrite preorder_values, filter_matches_PyStr.
    apply Permutation_map. unfold matching_titles. apply filter_perm.
    unfold tree. rewrite preorder_inserts_perm. simpl. rewrite app_nil_r.
    apply titles_of_feed.
Qed.

(** X16: the tree built by BST.insert from any list of titles holds exactly
    these titles, duplicates included, and at every node the values on the
    left are smaller for Python's string order and those on the right are
    not. *)
Theorem X16_feed_tree_ordered (titles : list string) :
  str_ordered (fold_left insert titles NoNode)
  /\ Permutation (preorder (fold_left insert titles NoNode)) titles.
Proof.
  split.
  - generalize (I : str_ordered NoNode). generalize (@NoNode string).
    induction titles as [|d titles IH]; intros t Ht; simpl; [exact Ht|].
    apply IH, str_ordered_insert, Ht.
  - rewrite preorder_inserts_perm. simpl. rewrite app_nil_r. reflexivity.
Qed.

End FeedFacts.

Lemma X15_perform_bst_search_finds_all_witness :
  let rows := [Feed.mkRow 2 (Some "Binary Trees"%string) None None None None None;
               Feed.mkRow 1 None None None None (Some 3) None] in
  ((List.length rows < 5)%nat ->
   exists found, Feed.perform_bst_search 5 rows "TREE" = Ok found)
  /\ match Feed.perform_bst_search 5 rows "TREE" with
     | Ok found =>
         ("TREE"%string = ""%string -> found = [])
         /\ ("TREE"%string <> ""%string ->
             Permutation found (map PyStr (Feed.matching_titles rows "TREE")))
     | Raise e => e = RecursionError /\ "TREE"%string <> ""%string
     end.
Proof.
  apply (X15_perform_bst_search_finds_all 5
           [Feed.mkRow 2 (Some "Binary Trees"%string) None None None None None;
            Feed.mkRow 1 None None None None (Some 3) None] "TREE");
    reflexivity.
Defined.

(** ** Counters of the linked stack and queue, round trip through the queue *)

Section LinkedFacts.
Import Queue.
Context {A : Type}.

(** X17: after any pushes on a new stack, the counter [length] is the number
    of values [to_list] returns. *)
Theorem X17_stack_length_counts (xs : list A) :
  Stack.length (fold_left Stack.push xs Stack.new)
  = Z.of_nat (List.length (Stack.to_list (fold_left Stack.push xs Stack.new))).
Proof.
  rewrite length_push_all, to_list_push_all, app_nil_r, length_rev.
  reflexivity.
Qed.

Lemma fifo_run_enqueues (xs : list A) (rest : list (op A)) (l : list A) :
  fifo_run (map Enqueue xs ++ rest) l = fifo_run rest (l ++ xs).
Proof.
  revert l. induction xs as [|x xs IH]; intros l; simpl.
  - rewrite app_nil_r. reflexivity.
  - rewrite IH, <- app_assoc. reflexivity.
Qed.

Lemma fifo_run_dequeues (l : list A) :
  fifo_run (repeat Dequeue (List.length l)) l = (map Some l, []).
Proof.
  induction l as [|x l IH]; simpl; [reflexivity|]. rewrite IH. reflexivity.
Qed.

(** X18: on a new queue, enqueuing the values of a list and then calling
    dequeue as many times returns these values in the same order, raises
    nothing, and leaves the queue with [head] unset and [length] 0; with one
    value this is the round trip made by the delete route. *)
Theorem X18_queue_round_trip (xs : list A) :
  exists q,
    run (map Enqueue xs ++ repeat Dequeue (List.length xs)) new
    = Ok (map Some xs, q)
    /\ head q = None /\ length q = 0.
Proof.
  destruct (run_refines (map Enqueue xs ++ repeat Dequeue (List.length xs))
              new [] repr_new) as (q & E & [Hlen Hhead]).
  rewrite fifo_run_enqueues in E, Hlen, Hhead. cbn [app] in E, Hlen, Hhead.
  rewrite fifo_run_dequeues in E, Hlen, Hhead.
  exists q. split; [exact E|]. split; [exact Hhead|exact Hlen].
Qed.

(** X19: after every sequence of enqueue and dequeue calls on a new queue,
    [length] is the number of values enqueued minus the number of values
    handed out, it is not negative, and it is 0 exactly when [head] is
    unset: the test of dequeue on [length] and the test of enqueue on [head]
    agree. *)
Theorem X19_queue_length_counts (ops : list (op A)) :
  exists outs q,
    run ops new = Ok (outs, q)
    /\ length q = Z.of_nat (List.length (enqueued ops))
                  - Z.of_nat (List.length (returned outs))
    /\ 0 <= length q
    /\ (length q = 0 <-> head q = None).
Proof.
  destruct (run_refines ops new [] repr_new) as (q & E & [Hlen Hhead]).
  pose proof (fifo_run_order ops []) as Hord.
  destruct (fifo_run ops []) as [outs contents]. simpl in *.
  exists outs, q. split; [exact E|].
  assert (Hcount : List.length (enqueued ops)
                   = (List.length (returned outs) + List.length contents)%nat).
  { rewrite <- Hord, length_app. reflexivity. }
  split; [lia|]. split; [lia|].
  destruct contents as [|x contents].
  - split; [intros _; exact Hhead|intros _; exact Hlen].
  - destruct Hhead as (h & t & Hh & _). rewrite Hh, Hlen. simpl List.length.
    split; [lia|discriminate].
Qed.

End LinkedFacts.

(** ** /bst/insert and /bst/reset with HTML fragments *)

Section TopBSTFacts.
Import NumBST Routes TopBST.

Lemma unsigned_literal_raises (s : string) (e : exn) :
  unsigned_literal s = Raise e -> e = ValueError.
Proof.
  unfold unsigned_literal. destruct s as [|c s]; [congruence|].
  destruct (digit c); [|congruence].
  destruct (digits s z false); [|congruence].
  destruct (max_str_digits <? digit_count (String c s))%nat; congruence.
Qed.

(** int() raises nothing but TypeError, ValueError and OverflowError. *)
Lemma py_int_raises (x : json) (e : exn) :
  py_int x = Raise e -> is_Exception e = true.
Proof.
  destruct x as [|b|z|m ex|n| |s|]; simpl; try discriminate;
    try (intros [= <-]; reflexivity).
  unfold int_of_str, int_literal.
  generalize (int_rstrip (int_lstrip s)) as t. intros t H.
  assert (e = ValueError) as ->; [|reflexivity].
  destruct t as [|c t]; [apply (unsigned_literal_raises _ _ H)|].
  destruct (Ascii.eqb_spec c "-") as [->|Hm].
  - cbn in H. destruct (unsigned_literal t) eqn:U; cbn in H; [discriminate|].
    injection H as <-. apply (unsigned_literal_raises _ _ U).
  - destruct (Ascii.eqb_spec c "+") as [->|Hp].
    + apply (unsigned_literal_raises _ _ H).
    + apply (unsigned_literal_raises (String c t)).
      destruct c as [[] [] [] [] [] [] [] []]; try exact H;
        exfalso; auto.
Qed.

(** [insert] returns what the insertion of the numeric tree returns, or
    raises RecursionError; it returns on a tree lower than the limit. *)
Lemma insert_result (limit : nat) (t : tree Z) (v : Z) :
  insert limit t v = Ok (NumBST.bst_insert t v)
  \/ insert limit t v = Raise RecursionError.
Proof.
  revert t. induction limit as [|limit IH]; intros t; [right; reflexivity|].
  destruct t as [|x l r]; [left; reflexivity|]. cbn [insert NumBST.bst_insert].
  destruct (v <? x).
  - destruct (IH l) as [-> | ->]; [left|right]; reflexivity.
  - destruct (IH r) as [-> | ->]; [left|right]; reflexivity.
Qed.

Lemma insert_within (limit : nat) (t : tree Z) (v : Z) :
  (GenericTree.height t < limit)%nat ->
  insert limit t v = Ok (NumBST.bst_insert t v).
Proof.
  revert t. induction limit as [|limit IH]; intros t Hh; [lia|].
  destruct t as [|x l r]; [reflexivity|]. cbn [insert NumBST.bst_insert].
  simpl in Hh. destruct (v <? x); rewrite IH by lia; reflexivity.
Qed.

Lemma render_result (limit : nat) (t : tree Z) :
  render_bst_html limit t = Ok tt
  \/ render_bst_html limit t = Raise RecursionError.
Proof.
  revert t. induction limit as [|limit IH]; intros t; [right; reflexivity|].
  destruct t as [|x l r]; [left; reflexivity|]. cbn [render_bst_html].
  destruct (IH l) as [-> | ->]; [|right; reflexivity].
  destruct (IH r) as [-> | ->]; [left|right]; reflexivity.
Qed.

Lemma render_within (limit : nat) (t : tree Z) :
  (GenericTree.height t < limit)%nat -> render_bst_html limit t = Ok tt.
Proof.
  revert t. induction limit as [|limit IH]; intros t Hh; [lia|].
  destruct t as [|x l r]; [reflexivity|]. cbn [render_bst_html].
  simpl in Hh. rewrite !IH by lia. reflexivity.
Qed.

Lemma height_bst_insert (t : tree Z) (v : Z) :
  (GenericTree.height (NumBST.bst_insert t v) <= S (GenericTree.height t))%nat.
Proof.
  induction t as [|x l IHl r IHr]; simpl; [lia|].
  destruct (v <? x); simpl; lia.
Qed.

(** One insertion request: the answer is one of those allowed, and the tree
    is the one before or has the value inserted. *)
Lemma bst_insert_cases (limit : nat) (raw : option json) (t : tree Z) :
  answered (PostInsert raw) (bst_insert limit raw t).1
  /\ match py_int (get_value raw) with
     | Raise _ => (bst_insert limit raw t).2 = t
     | Ok v =>
         (bst_insert limit raw t).2 = t
         \/ (bst_insert limit raw t).2 = NumBST.bst_insert t v
     end.
Proof.
  unfold answered, bst_insert.
  destruct (py_int (get_value raw)) as [v|e] eqn:E.
  - destruct (insert_result limit t v) as [-> | ->]; simpl; [|auto].
    split; [|auto].
    destruct (render_result limit (NumBST.bst_insert t v)) as [-> | ->];
      simpl; eauto.
  - rewrite (py_int_raises _ _ E). simpl. auto.
Qed.

Lemma bst_insert_within (limit : nat) (raw : option json) (t : tree Z) (v : Z) :
  py_int (get_value raw) = Ok v ->
  (S (GenericTree.height t) < limit)%nat ->
  bst_insert limit raw t
  = (Ok (Render (NumBST.bst_insert t v)), NumBST.bst_insert t v).
Proof.
  intros E Hh. unfold bst_insert. rewrite E, insert_within by lia.
  pose proof (height_bst_insert t v).
  rewrite render_within by lia. reflexivity.
Qed.

Lemma serve_from (limit : nat) (reqs : list request) (t : tree Z)
    (acc : list Z) (answers : list (result answer)) (root : tree Z) :
  ordered t -> incl (keys t) acc ->
  serve limit reqs t = (answers, root) ->
  Forall2 answered reqs answers
  /\ ordered root
  /\ incl (keys root) (stored reqs acc).
Proof.
  revert t acc answers. induction reqs as [|[raw|] reqs IH];
    intros t acc answers Ht Hacc; cbn [serve handle stored].
  - intros [= <- <-]. split; [constructor|]. auto.
  - pose proof (bst_insert_cases limit raw t) as [Ha Ht'].
    destruct (bst_insert limit raw t) as [a t1]. simpl in Ha, Ht'.
    destruct (serve limit reqs t1) as [answers1 t2] eqn:Hs.
    intros [= <- <-].
    assert (G : Forall2 answered reqs answers1 /\ ordered t2
                /\ incl (keys t2)
                     (match py_int (get_value raw) with
                      | Ok value => stored reqs (value :: acc)
                      | Raise _ => stored reqs acc
                      end)).
    { destruct (py_int (get_value raw)) as [v|e].
      - destruct Ht' as [-> | ->].
        + apply (IH t (v :: acc) answers1 Ht); [|exact Hs].
          apply incl_tl, Hacc.
        + apply (IH (NumBST.bst_insert t v) (v :: acc) answers1);
            [apply ordered_insert, Ht| |exact Hs].
          intros k Hk.
          apply (Permutation_in _ (keys_insert_perm t v)) in Hk.
          destruct Hk as [<-|Hk]; [left; reflexivity|right; apply Hacc, Hk].
      - subst t1. apply (IH t acc answers1 Ht Hacc Hs). }
    destruct G as (G1 & G2 & G3). split; [constructor; assumption|]. auto.
  - unfold bst_reset.
    destruct (serve limit reqs Empty) as [answers1 t2] eqn:Hs.
    intros [= <- <-].
    destruct (IH Empty [] answers1 I (incl_refl _) Hs) as (G1 & G2 & G3).
    split; [constructor; [reflexivity|assumption]|]. auto.
Qed.

Lemma serve_within (limit : nat) (reqs : list request) (t : tree Z)
    (acc : list Z) (answers : list (result answer)) (root : tree Z) :
  (GenericTree.height t + List.length reqs < limit)%nat ->
  Permutation (keys t) acc ->
  serve limit reqs t = (answers, root) ->
  Forall (fun a => raised a = false) answers
  /\ Permutation (keys root) (stored reqs acc).
Proof.
  revert t acc answers. induction reqs as [|[raw|] reqs IH];
    intros t acc answers Hh Hacc; cbn [serve handle stored].
  - intros [= <- <-]. split; [constructor|exact Hacc].
  - simpl in Hh. destruct (py_int (get_value raw)) as [v|e] eqn:E.
    + rewrite (bst_insert_within limit raw t v E) by lia.
      destruct (serve limit reqs (NumBST.bst_insert t v)) as [answers1 t2] eqn:Hs.
      intros [= <- <-].
      destruct (IH (NumBST.bst_insert t v) (v :: acc) answers1)
        with (3 := Hs) as [G1 G2].
      * pose proof (height_bst_insert t v). lia.
      * rewrite keys_insert_perm, Hacc. reflexivity.
      * split; [constructor; [reflexivity|exact G1]|exact G2].
    + unfold bst_insert. rewrite E, (py_int_raises _ _ E).
      destruct (serve limit reqs t) as [answers1 t2] eqn:Hs.
      intros [= <- <-].
      destruct (IH t acc answers1) with (3 := Hs) as [G1 G2]; [lia|exact Hacc|].
      split; [constructor; [reflexivity|exact G1]|exact G2].
  - unfold bst_reset. simpl in Hh.
    destruct (serve limit reqs Empty) as [answers1 t2] eqn:Hs.
    intros [= <- <-].
    destruct (IH Empty [] answers1) with (3 := Hs) as [G1 G2];
      [simpl; lia|reflexivity|].
    split; [constructor; [reflexivity|exact G1]|exact G2].
Qed.

(** X20: for every sequence of /bst/insert and /bst/reset requests with
    ASCII strings, whatever the values otherwise: a value that int() rejects
    is answered with the error 400, a reset with the empty rendering, and a
    value that int() reads with a rendering or with RecursionError, nothing
    else being raised.  The tree stored is ordered, with left keys strictly
    smaller and right keys greater or equal at every node, and holds only
    integers read since the last reset.  When the interpreter allows more
    nested calls than there are requests, no request raises and the tree
    holds exactly the integers read since the last reset, duplicates
    included. *)
Theorem X20_insert_only_tree_ordered
    (limit : nat) (reqs : list request)
    (answers : list (result answer)) (root : tree Z) :
  forallb ascii_request reqs = true ->
  serve limit reqs Empty = (answers, root) ->
  Forall2 answered reqs answers
  /\ ordered root
  /\ incl (keys root) (stored reqs [])
  /\ ((List.length reqs < limit)%nat ->
      Forall (fun a => raised a = false) answers
      /\ Permutation (keys root) (stored reqs [])).
Proof.
  intros _ H.
  destruct (serve_from limit reqs Empty [] answers root I (incl_refl _) H)
    as (G1 & G2 & G3).
  repeat (split; [assumption|]).
  intros Hl. apply (serve_within limit reqs Empty [] answers root);
    [simpl; lia|reflexivity|exact H].
Qed.

End TopBSTFacts.

Lemma X20_insert_only_tree_ordered_witness :
  let reqs :=
    [TopBST.PostInsert (Some (Routes.JStr " 2 "));
     TopBST.PostInsert (Some (Routes.JStr (String (ascii_of_nat 31) "7")));
     TopBST.PostInsert (Some (Routes.JInt 3));
     TopBST.PostInsert (Some (Routes.JFloat 9 (-1)));
     TopBST.PostInsert (Some Routes.JNull);
     TopBST.PostInsert (Some (Routes.JInt 5))] in
  let answers :=
    [Ok (TopBST.Render (TreeNode 2 Empty Empty));
     Ok TopBST.Error400;
     Ok (TopBST.Render (TreeNode 2 Empty (TreeNode 3 Empty Empty)));
     Raise RecursionError;
     Ok TopBST.Error400;
     Raise RecursionError] in
  let root :=
    TreeNode 2 Empty (TreeNode 3 Empty (TreeNode 4 Empty Empty)) in
  Forall2 TopBST.answered reqs answers
  /\ NumBST.ordered root
  /\ incl (NumBST.keys root) (TopBST.stored reqs [])
  /\ ((List.length reqs < 3)%nat ->
      Forall (fun a => TopBST.raised a = false) answers
      /\ Permutation (NumBST.keys root) (TopBST.stored reqs [])).
Proof.
  apply (X20_insert_only_tree_ordered 3
           [TopBST.PostInsert (Some (Routes.JStr " 2 "));
            TopBST.PostInsert (Some (Routes.JStr (String (ascii_of_nat 31) "7")));
            TopBST.PostInsert (Some (Routes.JInt 3));
            TopBST.PostInsert (Some (Routes.JFloat 9 (-1)));
            TopBST.PostInsert (Some Routes.JNull);
            TopBST.PostInsert (Some (Routes.JInt 5))]).
  - reflexivity.
  - reflexivity.
Defined.

(** ** The binary tree with node identifiers *)

Section IdTreeFacts.
Import GenericTree GenericTreeShape IdTree.
Context {V : Type}.
Implicit Types (n root : node V) (p here : path).

Lemma subtree_app n p (p' : path) :
  subtree n (p ++ p') = subtree (subtree n p) p'.
Proof.
  revert n. induction p as [|a p IH]; intros n; [reflexivity|].
  destruct n as [|v l r]; simpl.
  - destruct p'; reflexivity.
  - destruct a; apply IH.
Qed.

(** What find_node_by_id returns: [None] exactly when no node bears the
    identifier, otherwise the place of a node that bears it. *)
Lemma find_node_by_id_spec n (target : string) here :
  match find_node_by_id n target here with
  | None => ~ In target (ids n)
  | Some found =>
      exists p value l r,
        found = here ++ p /\ subtree n p = TreeNode (target, value) l r
  end.
Proof.
  revert here. induction n as [|[id value] l IHl r IHr]; intros here.
  - simpl. tauto.
  - cbn [find_node_by_id]. destruct (String.eqb_spec id target) as [->|Hne].
    + exists [], value, l, r. rewrite app_nil_r. auto.
    + specialize (IHl (here ++ [SlotLeft])).
      destruct (find_node_by_id l target (here ++ [SlotLeft])) as [found|].
      * destruct IHl as (p & v' & l' & r' & -> & Hsub).
        exists (SlotLeft :: p), v', l', r'. rewrite <- app_assoc. auto.
      * specialize (IHr (here ++ [SlotRight])).
        destruct (find_node_by_id r target (here ++ [SlotRight])) as [found|].
        -- destruct IHr as (p & v' & l' & r' & -> & Hsub).
           exists (SlotRight :: p), v', l', r'. rewrite <- app_assoc. auto.
        -- unfold ids in *. simpl. rewrite map_app, in_app_iff. simpl. tauto.
Qed.

Lemma attach_at_end_values (s : slot) n (new : node V) :
  Permutation (values (attach_at_end s n new)) (values new ++ values n).
Proof.
  induction n as [|v l IHl r IHr]; simpl.
  - rewrite app_nil_r. reflexivity.
  - destruct s; simpl.
    + rewrite IHl, <- app_assoc.
      apply (Permutation_middle (values new) (values l ++ values r) v).
    + rewrite IHr.
      rewrite <- (Permutation_middle (values new) (values l ++ values r) v).
      apply perm_skip. rewrite !app_assoc.
      apply Permutation_app_tail, Permutation_app_comm.
Qed.

Lemma find_node_by_id_found root (target : string) :
  match find_node_by_id root target [] with
  | None => ~ In target (ids root)
  | Some found =>
      exists value l r, subtree root found = TreeNode (target, value) l r
  end.
Proof.
  pose proof (find_node_by_id_spec root target []) as H.
  destruct (find_node_by_id root target []) as [found|]; [|exact H].
  destruct H as (p & value & l & r & -> & Hsub). eauto.
Qed.

(** X21: find_node_by_id returns nothing exactly when no node of the tree
    bears the identifier, and otherwise the place of a node bearing it. *)
Theorem X21_find_node_by_id_correct root (target : string) :
  match find_node_by_id root target [] with
  | None => ~ In target (ids root)
  | Some found =>
      exists value l r, subtree root found = TreeNode (target, value) l r
  end.
Proof. exact (find_node_by_id_found root target). Qed.

Lemma subtree_in_ids n p (id : string) (value : V) (l r : node V) :
  subtree n p = TreeNode (id, value) l r -> In id (ids n).
Proof.
  revert p. induction n as [|[i w] nl IHl nr IHr]; intros p Hsub.
  { destruct p; discriminate. }
  unfold ids. simpl. rewrite map_app, in_app_iff.
  destruct p as [|[] p]; simpl in Hsub.
  - injection Hsub as -> _ _ _. left; reflexivity.
  - right; left. apply (IHl p Hsub).
  - right; right. apply (IHr p Hsub).
Qed.

(** Where the loop [while cur.get(s): cur = cur[s]] ends: after the [k]
    links [s] that lead to nodes, the next one being empty; the new node is
    stored there. *)
Lemma attach_at_end_added (s : slot) n (x : string * V) :
  exists k : nat,
    (forall j : nat, (j < k)%nat -> label n (repeat s j) <> None)
    /\ added_at n (attach_at_end s n (new_node x)) (repeat s k) x.
Proof.
  induction n as [|v l IHl r IHr].
  - exists O. split; [intros j Hj; lia|]. apply added_at_root.
  - destruct s.
    + destruct IHl as (k & Hchain & Hadd). exists (S k). split.
      * intros [|j] Hj; [discriminate|].
        cbn [repeat]. rewrite label_node. apply Hchain. lia.
      * cbn [repeat attach_at_end]. apply added_at_child. auto.
    + destruct IHr as (k & Hchain & Hadd). exists (S k). split.
      * intros [|j] Hj; [discriminate|].
        cbn [repeat]. rewrite label_node. apply Hchain. lia.
      * cbn [repeat attach_at_end]. apply added_at_child. auto.
Qed.

Lemma attach_at_end_free (s : slot) (v : string * V) (l r : node V) (new : node V) :
  slot_of (TreeNode v l r) s = Empty ->
  attach (TreeNode v l r) [] s new = attach_at_end s (TreeNode v l r) new.
Proof. destruct s; simpl; intros ->; reflexivity. Qed.

(** X22: where bt_left and bt_right put the new node.  On an empty tree it
    becomes the root, whatever the parent identifier.  On a tree with a
    root: without a parent identifier it is stored at the end of the chain
    of left (respectively right) links that starts at the root; with the
    identifier of no node the tree is unchanged; with the identifier of a
    node it is stored in the left (respectively right) link of the node
    found if this link is empty, and otherwise the tree is unchanged.
    Whenever a node is stored it is a leaf with the new identifier and
    value, and every other place of the tree holds what it held: the tree
    is unchanged or holds exactly one node more. *)
Theorem X22_bt_add_keeps_nodes
    (s : slot) (parent : option string) (value : V) (fresh : string) root :
  let root' := bt_add s parent value fresh root in
  (root = Empty -> root' = leaf fresh value)
  /\ (root <> Empty -> given parent = None ->
      exists k : nat,
        (forall j : nat, (j < k)%nat -> label root (repeat s j) <> None)
        /\ added_at root root' (repeat s k) (fresh, value))
  /\ (forall pid : string, root <> Empty -> given parent = Some pid ->
      (~ In pid (ids root) -> root' = root)
      /\ (In pid (ids root) ->
          exists found v l r,
            find_node_by_id root pid [] = Some found
            /\ subtree root found = TreeNode (pid, v) l r
            /\ (slot_of (TreeNode (pid, v) l r) s <> Empty -> root' = root)
            /\ (slot_of (TreeNode (pid, v) l r) s = Empty ->
                added_at root root' (found ++ [s]) (fresh, value))))
  /\ (root' = root
      \/ Permutation (values root') ((fresh, value) :: values root)).
Proof.
  unfold bt_add. destruct root as [|v l r].
  { simpl. split; [reflexivity|]. split; [congruence|].
    split; [congruence|]. right; reflexivity. }
  cbv beta iota zeta. set (root := TreeNode v l r).
  split; [discriminate|].
  destruct (given parent) as [pid|].
  - split; [discriminate|].
    pose proof (find_node_by_id_found root pid) as Hfind.
    destruct (find_node_by_id root pid []) as [found|] eqn:Ef.
    + destruct Hfind as (value' & l' & r' & Hsub). split.
      * intros q _ [= <-]. split.
        { intros Hq. exfalso. apply Hq. eapply subtree_in_ids, Hsub. }
        intros _. exists found, value', l', r'.
        split; [exact Ef|]. split; [exact Hsub|].
        rewrite Hsub. split.
        -- intros Hs. destruct (slot_of (TreeNode (pid, value') l' r') s);
             [congruence|reflexivity].
        -- intros Hs. rewrite Hs.
           apply (attach_added root found s (fresh, value) _ _ _ Hsub Hs).
      * destruct (slot_of (subtree root found) s) eqn:E; [|left; reflexivity].
        right. rewrite Hsub in E.
        apply (attach_values root found s (leaf fresh value) _ _ _ Hsub E).
    + split; [|left; reflexivity].
      intros q _ [= <-]. split; [reflexivity|]. intros Hq. contradiction.
  - match goal with
    | |- context [added_at root ?m (repeat s _)] =>
        assert (E : m = attach_at_end s root (leaf fresh value))
    end.
    { destruct (slot_of root s) eqn:Hs; [|reflexivity].
      apply attach_at_end_free, Hs. }
    rewrite E. split; [|split; [discriminate|]].
    + intros _ _. apply (attach_at_end_added s root (fresh, value)).
    + right. apply (attach_at_end_values s root (leaf fresh value)).
Qed.

End IdTreeFacts.

(** ** The general tree with node identifiers *)

Section ChildTreeFacts.
Import ChildTree.
Context {V : Type}.
Implicit Types (n new : gnode V) (cs : list (gnode V)).

Lemma gnode_forall_ind (P : gnode V -> Prop) :
  (forall id value cs, Forall P cs -> P (GNode id value cs)) ->
  forall n, P n.
Proof.
  intros H. fix IH 1. intros [id value cs]. apply H.
  induction cs as [|c cs IHcs]; constructor; [apply IH|exact IHcs].
Qed.

Lemma add_GNode (target : string) new (id : string) (value : V) cs :
  add target new (GNode id value cs)
  = if String.eqb id target then (true, GNode id value (cs ++ [new]))
    else let '(done, cs') := add_first target new cs in
         (done, GNode id value cs').
Proof.
  cbn [add]. destruct (String.eqb id target); [reflexivity|].
  match goal with
  | |- (let '(_, _) := ?f cs in _) = _ =>
      assert (E : forall l, f l = add_first target new l)
  end.
  { induction l as [|c l IH]; [reflexivity|].
    cbn [add_first]. rewrite <- IH. reflexivity. }
  rewrite E. reflexivity.
Qed.

Lemma count_GNode (id : string) (value : V) cs :
  count (GNode id value cs) = S (count_all cs).
Proof. reflexivity. Qed.

Lemma gids_GNode (id : string) (value : V) cs :
  gids (GNode id value cs) = id :: gids_all cs.
Proof. reflexivity. Qed.

Lemma count_all_app cs (cs' : list (gnode V)) :
  count_all (cs ++ cs') = (count_all cs + count_all cs')%nat.
Proof.
  induction cs as [|c cs IH]; [reflexivity|].
  cbn [app count_all foldr]. fold (count_all (cs ++ cs')). fold (count_all cs).
  rewrite IH. lia.
Qed.

Lemma add_first_ok (target : string) new cs :
  Forall (add_ok target new) cs ->
  match add_first target new cs with
  | (false, cs') => cs' = cs /\ ~ In target (gids_all cs)
  | (true, cs') =>
      count_all cs' = (count_all cs + count new)%nat /\ In target (gids_all cs)
  end.
Proof.
  induction 1 as [|c cs Hc _ IH]; cbn [add_first]; [simpl; tauto|].
  unfold add_ok in Hc. destruct (add target new c) as [[] c'].
  - destruct Hc as [Hcount Hin]. split.
    + cbn [count_all foldr]. fold (count_all cs). lia.
    + cbn [gids_all flat_map]. apply in_or_app. left. exact Hin.
  - destruct Hc as [-> Hout].
    destruct (add_first target new cs) as [[] cs'].
    + destruct IH as [Hcount Hin]. split.
      * cbn [count_all foldr]. fold (count_all cs) (count_all cs'). lia.
      * cbn [gids_all flat_map]. apply in_or_app. right. exact Hin.
    + destruct IH as [-> Hout']. split; [reflexivity|].
      cbn [gids_all flat_map]. rewrite in_app_iff. tauto.
Qed.

Lemma add_is_ok (target : string) new n : add_ok target new n.
Proof.
  induction n as [id value cs IH] using gnode_forall_ind.
  unfold add_ok. rewrite add_GNode, gids_GNode.
  destruct (String.eqb_spec id target) as [->|Hne].
  - split; [|left; reflexivity].
    rewrite !count_GNode, count_all_app. cbn [count_all foldr]. lia.
  - pose proof (add_first_ok target new cs IH) as H.
    destruct (add_first target new cs) as [[] cs'].
    + destruct H as [Hcount Hin]. split; [|right; exact Hin].
      rewrite !count_GNode. lia.
    + destruct H as [-> Hout]. split; [reflexivity|].
      simpl. tauto.
Qed.

(** X23: t_child leaves the tree as it is when there is no tree, when the
    target is missing or empty, or when no node bears the target
    identifier; otherwise it adds exactly one node. *)
Theorem X23_t_child_adds_one
    (target : option string) (value : V) (fresh : string)
    (root : option (gnode V)) :
  let root' := t_child target value fresh root in
  match target with
  | Some t =>
      if String.eqb t "" then root' = root
      else (In t (gids_root root) -> count_root root' = S (count_root root))
           /\ (~ In t (gids_root root) -> root' = root)
  | None => root' = root
  end.
Proof.
  unfold t_child. destruct target as [t|]; [|destruct root; reflexivity].
  destruct (String.eqb t "") eqn:Et; [destruct root; reflexivity|].
  destruct root as [n|]; cbn [gids_root count_root].
  - pose proof (add_is_ok t (gleaf fresh value) n) as H. unfold add_ok in H.
    destruct (add t (gleaf fresh value) n) as [[] n']; cbn [snd].
    + destruct H as [Hcount Hin]. split; [|tauto].
      intros _. rewrite Hcount. simpl. lia.
    + destruct H as [-> Hout]. split; [tauto|reflexivity].
  - split; [intros []|reflexivity].
Qed.

End ChildTreeFacts.
